(** * Prize draw on a shared key-value store

    A shallow embedding of [app.py]: the draw state classifier, the
    entrant registry, the prize allocator, the profile read-through
    cache and the winner view, over a model of the Redis keys the
    program uses.

    Modelling conventions.
    - The store is a record with one field per key of the program's
      namespace.  A Redis set or hash that becomes empty is removed by
      the server, so an absent set (hash) key and the empty [gset]
      ([gmap]) are the same thing.
    - String keys carry an optional expiry instant.  A request is served
      at one instant [now] of an integer clock (seconds); a key written
      with [ex = d] at [now] is readable at every instant before
      [now + d].
    - JSON text written by [json.dumps] and read back by [json.loads]
      is represented by the value itself.
    - Randomness of [SPOP] is an explicit stream [rnd : nat -> nat].
    - [str.lower] and the order in which [HGETALL] lists the fields of
      a hash belong to the Python library and to the server: both are
      variables of the development, [lower] and [field_order], and the
      statements hold for whatever they are. *)

From Stdlib Require Import ZArith Ascii Lia.
From stdpp Require Import gmap strings list fin_maps fin_sets.

Open Scope Z_scope.

(** ** Data model *)

Inductive PrizeDrawState :=
| NO_DRAW
| DRAW_OPEN_NO_ENTRANTS
| DRAW_OPEN_WITH_ENTRANTS
| DRAW_CLOSED_NO_ENTRANTS
| DRAW_CLOSED_WITH_ENTRANTS
| DRAW_WON.

(** The part of a provider profile the program reads: [login], [name]
    (JSON [null] or a string) and [avatar_url]. *)
Record Profile := mkProfile {
  login : string;
  name : option string;
  avatar_url : string
}.

(** One element of [winner_list]: the dict with keys ['name'], ['prize']
    and ['image']. *)
Record Winner := mkWinner {
  winner_name : string;
  winner_prize : string;
  winner_image : string
}.

(** A string key: its value and the instant at which it expires. *)
Record entry (A : Type) := Entry {
  value : A;
  expire_at : option Z
}.
Arguments Entry {A} _ _.
Arguments value {A} _.
Arguments expire_at {A} _.

Record Store := mkStore {
  is_open : option (entry string);
  entrants : gset string;
  prizes : gset string;
  winners : gmap string string;
  winners_json : option (entry (list Winner));
  profiles : gmap string (entry Profile)
}.

Definition empty_store : Store :=
  mkStore None ∅ ∅ ∅ None ∅.

Definition set_is_open (v : option (entry string)) (s : Store) : Store :=
  mkStore v (entrants s) (prizes s) (winners s) (winners_json s) (profiles s).
Definition set_entrants (v : gset string) (s : Store) : Store :=
  mkStore (is_open s) v (prizes s) (winners s) (winners_json s) (profiles s).
Definition set_prizes (v : gset string) (s : Store) : Store :=
  mkStore (is_open s) (entrants s) v (winners s) (winners_json s) (profiles s).
Definition set_winners (v : gmap string string) (s : Store) : Store :=
  mkStore (is_open s) (entrants s) (prizes s) v (winners_json s) (profiles s).
Definition set_winners_json (v : option (entry (list Winner))) (s : Store) : Store :=
  mkStore (is_open s) (entrants s) (prizes s) (winners s) v (profiles s).
Definition set_profiles (v : gmap string (entry Profile)) (s : Store) : Store :=
  mkStore (is_open s) (entrants s) (prizes s) (winners s) (winners_json s) v.

(** ** The store commands the program issues *)

Module Redis.

(** An entry is readable strictly before its expiry instant. *)
Definition live {A} (now : Z) (e : entry A) : bool :=
  match expire_at e with
  | None => true
  | Some t => now <? t
  end.

(** [GET]: the value, or [None] for an absent or expired key. *)
Definition get {A} (now : Z) (k : option (entry A)) : option A :=
  match k with
  | Some e => if live now e then Some (value e) else None
  | None => None
  end.

(** [EXISTS] on one key answers 0 or 1. *)
Definition exists_ {A} (now : Z) (k : option (entry A)) : Z :=
  match get now k with
  | Some _ => 1
  | None => 0
  end.

Definition exists_set (k : gset string) : Z :=
  if decide (k = ∅) then 0 else 1.

Definition exists_hash (k : gmap string string) : Z :=
  if decide (k = ∅) then 0 else 1.

Definition scard (k : gset string) : Z := Z.of_nat (size k).

Definition smembers (k : gset string) : gset string := k.

Definition hgetall (k : gmap string string) : gmap string string := k.

(** The server keeps expiry instants as signed 64-bit milliseconds. *)
Definition LLONG_MAX : Z := 9223372036854775807.

(** The largest number of seconds [EX] takes: [LLONG_MAX / 1000]. *)
Definition EX_MAX : Z := 9223372036854775.

(** [SET key value [EX seconds]]: the server refuses ("invalid expire
    time") an expiry that is not positive or that exceeds [EX_MAX];
    [None] is that error reply.  The clock of the model is an unbounded
    integer: the server's further test, that the expiry instant itself
    stays below [LLONG_MAX] milliseconds, is the condition
    [expiry_fits] below, which the statements assume where it
    matters. *)
Definition set {A} (v : A) (ex : option Z) (now : Z) : option (entry A) :=
  match ex with
  | None => Some (Entry v None)
  | Some d =>
      if (0 <? d) && (d <=? EX_MAX) then Some (Entry v (Some (now + d)))
      else None
  end.

(** The expiry instant [now + d] is one the server's clock holds. *)
Definition expiry_fits (now d : Z) : Prop :=
  0 <= now /\ (now + d) * 1000 <= LLONG_MAX.

(** [SADD key member...]: the number of members that were new, and
    the set afterwards.  Without a member the command is refused
    (wrong number of arguments): [None]. *)
Definition sadd (members : list string) (k : gset string)
  : option (Z * gset string) :=
  match members with
  | [] => None
  | _ => Some (Z.of_nat (size (list_to_set members ∖ k : gset string)),
               k ∪ list_to_set members)
  end.

(** [SPOP key 1]: a list with one member chosen by the server, removed
    from the set; the empty list when the set is empty.  [r] is the
    server's random choice. *)
Definition spop (r : nat) (k : gset string) : list string * gset string :=
  match elements k !! (r mod length (elements k))%nat with
  | Some x => ([x], k ∖ {[x]})
  | None => ([], k)
  end.

(** [hmset name mapping]: the client raises [DataError] for a mapping
    of length 0 ([None] here); otherwise the given fields are written
    over the hash. *)
Definition hmset (mapping : gmap string string) (k : gmap string string)
  : option (gmap string string) :=
  if decide (mapping = ∅) then None else Some (mapping ∪ k).

End Redis.

(** ** DrawStateResolver *)

(** The branch structure of [get_draw_state] on the four replies. *)
Definition classify (draw_open winners_exist prizes_exist num_entrants : Z)
  : PrizeDrawState :=
  if (draw_open =? 0) && (winners_exist =? 0) && (prizes_exist =? 0) then
    NO_DRAW
  else if draw_open =? 1 then
    if num_entrants =? 0 then DRAW_OPEN_NO_ENTRANTS
    else DRAW_OPEN_WITH_ENTRANTS
  else if (draw_open =? 0) && (winners_exist =? 0) then
    if num_entrants =? 0 then DRAW_CLOSED_NO_ENTRANTS
    else DRAW_CLOSED_WITH_ENTRANTS
  else DRAW_WON.

Definition get_draw_state (now : Z) (s : Store) : PrizeDrawState :=
  let draw_open := Redis.exists_ now (is_open s) in
  let winners_exist := Redis.exists_hash (winners s) in
  let prizes_exist := Redis.exists_set (prizes s) in
  let num_entrants := Redis.scard (entrants s) in
  classify draw_open winners_exist prizes_exist num_entrants.

(** The precedence table of the specification, on what the four reads
    mean: flag present, winners present, prizes present, entrant
    count. *)
Definition resolve_table (flag winners_present prizes_present : bool)
  (entrant_count : nat) : PrizeDrawState :=
  match flag, winners_present, prizes_present with
  | false, false, false => NO_DRAW
  | true, _, _ =>
      match entrant_count with
      | O => DRAW_OPEN_NO_ENTRANTS
      | S _ => DRAW_OPEN_WITH_ENTRANTS
      end
  | false, false, _ =>
      match entrant_count with
      | O => DRAW_CLOSED_NO_ENTRANTS
      | S _ => DRAW_CLOSED_WITH_ENTRANTS
      end
  | _, _, _ => DRAW_WON
  end.

Definition flag_present (now : Z) (s : Store) : bool :=
  match Redis.get now (is_open s) with Some _ => true | None => false end.
Definition winners_present (s : Store) : bool :=
  bool_decide (winners s ≠ ∅).
Definition prizes_present (s : Store) : bool :=
  bool_decide (prizes s ≠ ∅).

(** ** Effects: results, exceptions and the world *)

Inductive exn :=
| TypeError          (* subscripting [None] *)
| DataError          (* raised by the store client *)
| ResponseError      (* error reply of the store server *)
| RequestException.  (* the provider could not be reached *)

(** What a request handler yields: a value, an HTTP error response from
    [abort(code)], or an exception that nothing catches.  [Diverged]
    stands for a loop that ran out of its iteration budget. *)
Inductive result (A : Type) :=
| Ok (a : A)
| Abort (code : Z)
| Raise (e : exn)
| Diverged.
Arguments Ok {A} _.
Arguments Abort {A} _.
Arguments Raise {A} _.
Arguments Diverged {A}.

(** What [requests.get] gives: a response with its status code and JSON
    body, or no response at all. *)
Inductive provider_reply :=
| Response (status_code : Z) (json : Profile)
| NoResponse.

(** The store together with the log of identities requested from the
    provider, oldest first. *)
Record World := mkWorld {
  store : Store;
  fetched : list string
}.

Definition empty_world : World := mkWorld empty_store [].

Definition M (A : Type) : Type := World -> result A * World.

Definition ret {A} (a : A) : M A := fun w => (Ok a, w).
Definition abort {A} (code : Z) : M A := fun w => (Abort code, w).
Definition raise {A} (e : exn) : M A := fun w => (Raise e, w).
Definition bind {A B} (m : M A) (k : A -> M B) : M B := fun w =>
  match m w with
  | (Ok a, w') => k a w'
  | (Abort c, w') => (Abort c, w')
  | (Raise e, w') => (Raise e, w')
  | (Diverged, w') => (Diverged, w')
  end.
Definition read_store : M Store := fun w => (Ok (store w), w).
Definition write_store (f : Store -> Store) : M unit := fun w =>
  (Ok tt, mkWorld (f (store w)) (fetched w)).

Notation "'let*' x ':=' m 'in' k" := (bind m (fun x => k))
  (at level 10, x name, m at level 100, k at level 200).
Notation "m ';;' k" := (bind m (fun _ => k))
  (at level 100, k at level 200, right associativity).

(** Python truth value of [profile['name']]: [None] and the empty string
    are false. *)
Definition truthy (v : option string) : bool :=
  match v with
  | Some s => negb (String.eqb s EmptyString)
  | None => false
  end.

(** Lowercasing of the ASCII letters: what [str.lower] does on ASCII
    text, used for the concrete runs. *)
Definition lower_ascii (c : ascii) : ascii :=
  let n := N_of_ascii c in
  if ((65 <=? n) && (n <=? 90))%N then ascii_of_N (n + 32) else c.

Fixpoint ascii_lower (s : string) : string :=
  match s with
  | EmptyString => EmptyString
  | String c s' => String (lower_ascii c) (ascii_lower s')
  end.

Section App.

(** The identity provider: its answer to [GET /users/<id>] at a given
    instant. *)
Variable provider : Z -> string -> provider_reply.

(** [str.lower] of the Python library: the Unicode lowercasing of a
    string.  Its tables are not part of the program; it is taken as
    given. *)
Variable lower : string -> string.

(** The order in which the reply to [HGETALL] lists the fields of a
    hash.  It is the server's: the statements that depend on it assume
    that the reply lists every field once,
    [field_order h ≡ₚ map_to_list h]. *)
Variable field_order : gmap string string -> list (string * string).

Definition requests_get (now : Z) (github_id : string) : M provider_reply :=
  fun w => (Ok (provider now github_id),
            mkWorld (store w) (fetched w ++ [github_id])).

(** *** ProfileCache *)

Definition get_github_profile (now : Z) (github_id : string)
  : M (option Profile) :=
  let* s := read_store in
  match Redis.get now (profiles s !! github_id) with
  | Some profile => ret (Some profile)
  | None =>
      let* response := requests_get now github_id in
      match response with
      | NoResponse => raise RequestException
      | Response status_code profile =>
          if status_code =? 200 then
            match Redis.set profile (Some 3600) now with
            | Some e =>
                write_store (fun s => set_profiles (<[github_id := e]> (profiles s)) s);;
                ret (Some profile)
            | None => raise ResponseError
            end
          else ret None
      end
  end.

Definition get_prizes (s : Store) : gset string :=
  Redis.smembers (prizes s).

(** *** WinnerView *)

(** The body of [for prize in winners], over the items of the hash in
    the order of the reply. *)
Fixpoint winner_loop (now : Z) (items : list (string * string))
  (winner_list : list Winner) : M (list Winner) :=
  match items with
  | [] => ret winner_list
  | (prize, winner_id) :: rest =>
      let* winner_profile := get_github_profile now winner_id in
      match winner_profile with
      | None => raise TypeError
      | Some p =>
          let winner_name :=
            if truthy (name p) then default EmptyString (name p)
            else login p in
          let winner := mkWinner winner_name prize (avatar_url p) in
          winner_loop now rest (winner_list ++ [winner])
      end
  end.

Definition get_winners (now : Z) : M (option (list Winner)) :=
  let* s := read_store in
  match Redis.get now (winners_json s) with
  | Some cached => ret (Some cached)
  | None =>
      let winners := Redis.hgetall (winners s) in
      if decide (winners = ∅) then ret None
      else
        let* winner_list := winner_loop now (field_order winners) [] in
        match Redis.set winner_list None now with
        | Some e =>
            write_store (set_winners_json (Some e));;
            ret (Some winner_list)
        | None => raise ResponseError
        end
  end.

(** *** EntrantRegistry *)

Definition enter_prize_draw (now : Z) (github_id : string) : M Profile :=
  let* s := read_store in
  if Redis.exists_ now (is_open s) =? 0 then abort 403
  else
    let lowercase_id := lower github_id in
    let* profile := get_github_profile now lowercase_id in
    match profile with
    | None => abort 404
    | Some profile =>
        let* s := read_store in
        match Redis.sadd [lowercase_id] (entrants s) with
        | None => raise ResponseError
        | Some (member_added, entrants') =>
            write_store (set_entrants entrants');;
            if member_added =? 0 then abort 400
            else ret profile
        end
    end.

(** *** Opening and closing a draw *)

(** The three queued commands run as one [MULTI]/[EXEC] block: a
    command refused when queued ([SADD] without members) aborts the
    block and nothing runs; a command failing when run ([SET] with an
    invalid expiry) leaves the earlier ones applied, and [execute]
    raises. *)
Definition start_new_draw (authenticated : bool) (prizes : list string)
  (duration : Z) (now : Z) : M string :=
  if negb authenticated then abort 403
  else
    let duration := if duration =? 0 then None else Some duration in
    match Redis.sadd prizes ∅ with
    | None => raise ResponseError
    | Some (_, prizes') =>
        write_store (fun s =>
          set_prizes prizes'
            (set_prizes ∅ (set_winners_json None
               (set_winners ∅ (set_entrants ∅ s)))));;
        match Redis.set "true" duration now with
        | Some e =>
            write_store (set_is_open (Some e));;
            ret "OK"
        | None => raise ResponseError
        end
    end.

Definition end_draw (authenticated : bool) : M string :=
  if negb authenticated then abort 403
  else
    write_store (set_is_open None);;
    ret "OK".

(** *** PrizeAllocator *)

(** The [while True] loop.  [k] counts the pops made so far, so that
    the [k]-th pop uses [rnd k]; [fuel] bounds the iterations. *)
Fixpoint draw_loop (fuel : nat) (rnd : nat -> nat) (k : nat)
  (prize_winners : gmap string string) : M (gmap string string) :=
  match fuel with
  | O => fun w => (Diverged, w)
  | S fuel' =>
      let* s := read_store in
      let '(prize, prizes') := Redis.spop (rnd k) (prizes s) in
      write_store (set_prizes prizes');;
      match prize with
      | [] => ret prize_winners
      | prize :: _ =>
          let* s := read_store in
          let '(winner, entrants') := Redis.spop (rnd (S k)) (entrants s) in
          write_store (set_entrants entrants');;
          match winner with
          | [] => ret prize_winners
          | winner :: _ =>
              draw_loop fuel' rnd (S (S k)) (<[prize := winner]> prize_winners)
          end
      end
  end.

Definition draw_prizes (authenticated : bool) (rnd : nat -> nat) : M string :=
  if negb authenticated then abort 403
  else
    write_store (set_is_open None);;
    let* s := read_store in
    let* prize_winners := draw_loop (S (size (prizes s))) rnd 0 ∅ in
    let* s := read_store in
    match Redis.hmset prize_winners (winners s) with
    | None => raise DataError
    | Some winners' =>
        write_store (set_winners winners');;
        write_store (set_entrants ∅);;
        ret "OK"
    end.

(** *** Reachable worlds *)

Inductive step : World -> World -> Prop :=
| step_start_new_draw authenticated prizes duration now w :
    step w (start_new_draw authenticated prizes duration now w).2
| step_enter_prize_draw now github_id w :
    step w (enter_prize_draw now github_id w).2
| step_end_draw authenticated w :
    step w (end_draw authenticated w).2
| step_draw_prizes authenticated rnd w :
    step w (draw_prizes authenticated rnd w).2
| step_get_winners now w :
    step w (get_winners now w).2.

Inductive reachable : World -> Prop :=
| reachable_empty : reachable empty_world
| reachable_step w w' : reachable w -> step w w' -> reachable w'.

(** A sequence of registration requests, each at its own instant,
    served one after the other. *)
Fixpoint enter_all (calls : list (Z * string)) (w : World)
  : list (result Profile) * World :=
  match calls with
  | [] => ([], w)
  | (now, github_id) :: rest =>
      let '(r, w1) := enter_prize_draw now github_id w in
      let '(rs, w2) := enter_all rest w1 in
      (r :: rs, w2)
  end.

(** *** Vocabulary of the statements *)

(** No value of the mapping is held by two keys. *)
Definition injective_map (m : gmap string string) : Prop :=
  forall k1 k2 v, m !! k1 = Some v -> m !! k2 = Some v -> k1 = k2.

(** [m] pairs prizes of [P] with entrants of [E], no entrant twice, and
    as many as the smaller set allows. *)
Definition matching (m : gmap string string) (P E : gset string) : Prop :=
  dom m ⊆ P
  /\ (forall k v, m !! k = Some v -> v ∈ E)
  /\ injective_map m
  /\ size m = Nat.min (size P) (size E).

(** The store a freshly opened draw leaves: nothing of the previous
    draw, the given prizes, and the flag with its expiry. *)
Definition opened_with (prize_list : list string) (duration now : Z)
  (s : Store) : Prop :=
  winners s = ∅
  /\ winners_json s = None
  /\ entrants s = ∅
  /\ prizes s = list_to_set prize_list
  /\ is_open s =
     Some (Entry "true" (if duration =? 0 then None else Some (now + duration))).

(** The fields of a draw, that is everything but the profile cache. *)
Definition same_draw (s s' : Store) : Prop :=
  is_open s' = is_open s
  /\ entrants s' = entrants s
  /\ prizes s' = prizes s
  /\ winners s' = winners s
  /\ winners_json s' = winners_json s.

(** Winners are stored only for a closed draw whose entrants are
    gone. *)
Definition draw_inv (s : Store) : Prop :=
  winners s = ∅ \/ (is_open s = None /\ entrants s = ∅).

(** *** Sample data *)

Definition octocat : Profile :=
  mkProfile "octocat" (Some "The Octocat") "https://example.org/octocat.png".

(** The reply that lists the fields of a hash by key. *)
Definition key_order (h : gmap string string) : list (string * string) :=
  map_to_list h.

(** A provider that knows every identity. *)
Definition provider_up : Z -> string -> provider_reply :=
  fun _ github_id => Response 200 (mkProfile github_id None EmptyString).

(** A provider that answers 503 to everything. *)
Definition provider_down : Z -> string -> provider_reply :=
  fun _ _ => Response 503 (mkProfile EmptyString None EmptyString).

(** A resolved draw: one winner, nothing cached. *)
Definition won_world : World :=
  mkWorld (set_winners {["A" := "x"]} empty_store) [].

(** A closed draw with entrants and no prize. *)
Definition no_prize_world : World :=
  mkWorld (set_entrants {["x"; "y"]} empty_store) [].

(** A closed draw with prizes and no entrant. *)
Definition no_entrant_world : World :=
  mkWorld (set_prizes {["A"; "B"; "C"]} empty_store) [].

(** An open draw with two prizes and three entrants. *)
Definition two_three_world : World :=
  mkWorld (set_is_open (Some (Entry "true" None))
             (set_prizes {["A"; "B"]}
                (set_entrants {["x"; "y"; "z"]} empty_store))) [].

(** An open draw without entrants. *)
Definition open_world : World :=
  mkWorld (set_is_open (Some (Entry "true" None))
             (set_prizes {["A"; "B"]} empty_store)) [].

(** *** The rest of the request handlers *)

(** What [homepage] passes to its template: the state, the prizes (in
    the open states) and the winners (in the state [DRAW_WON]). *)
Definition homepage (now : Z)
  : M (PrizeDrawState * option (gset string) * option (list Winner)) :=
  let* s := read_store in
  let state := get_draw_state now s in
  let prizes :=
    match state with
    | DRAW_OPEN_NO_ENTRANTS | DRAW_OPEN_WITH_ENTRANTS => Some (get_prizes s)
    | _ => None
    end in
  let* winners :=
    match state with
    | DRAW_WON => get_winners now
    | _ => ret None
    end in
  ret (state, prizes, winners).

(** *** Key names *)

Definition REDIS_KEY_PREFIX : string := "luckydraw".

(** [sep.join(args)] *)
Fixpoint join (sep : string) (args : list string) : string :=
  match args with
  | [] => EmptyString
  | a :: rest =>
      match rest with
      | [] => a
      | _ => String.append a (String.append sep (join sep rest))
      end
  end.

Definition get_key_name (args : list string) : string :=
  String.append REDIS_KEY_PREFIX (String.append ":" (join ":" args)).

(** The keys the program names. *)
Definition draw_keys : list string :=
  [get_key_name ["is_open"]; get_key_name ["winners"];
   get_key_name ["prizes"]; get_key_name ["entrants"];
   get_key_name ["winners_json"]]%string.

(** *** The admin session *)

(** The session cookie: a dict; the program only ever stores [True]
    under ['authenticated']. *)
Definition session_authenticated (session : gmap string bool) : bool :=
  default false (session !! "authenticated"%string).

(** The two pages [admin_page] renders. *)
Inductive admin_view :=
| adminlogin (error : option string)
| admin (state : PrizeDrawState).

(** [admin_page]: the request method, the ['password'] field of the form
    (absent: the framework answers 400), the configured password
    ([os.environ.get], [None] when unset). *)
Definition admin_page (method : string) (password : option string)
  (PRIZE_DRAW_PASSWORD : option string) (now : Z) (s : Store)
  (session : gmap string bool) : result admin_view * gmap string bool :=
  if String.eqb method "GET" then (Ok (adminlogin None), ∅)
  else
    match password with
    | None => (Abort 400, session)
    | Some password =>
        if negb (String.eqb password EmptyString)
           && bool_decide (Some password = PRIZE_DRAW_PASSWORD)
        then (Ok (admin (get_draw_state now s)),
              <["authenticated"%string := true]> session)
        else (Ok (adminlogin (Some "Bad password."%string)), session)
    end.

(** *** The redirect to https *)

Fixpoint string_drop (n : nat) (s : string) : string :=
  match n, s with
  | O, _ => s
  | S n', String _ s' => string_drop n' s'
  | S _, EmptyString => EmptyString
  end.

(** [s.replace(old, new, 1)]: the leftmost occurrence is replaced. *)
Fixpoint replace_first (old new s : string) : string :=
  if String.prefix old s then
    String.append new (string_drop (String.length old) s)
  else
    match s with
    | EmptyString => EmptyString
    | String c s' => String c (replace_first old new s')
    end.

(** [before_request]: the target and the code of the redirect, or
    [None] when the request goes on to its handler. *)
Definition before_request (x_forwarded_proto : option string)
  (env : string) (url : string) : option (string * Z) :=
  if bool_decide (x_forwarded_proto = Some "http"%string)
     && negb (String.eqb env "development")
  then Some (replace_first "http://" "https://" url, 301)
  else None.

(** The name the winner view shows for a profile. *)
Definition display_name (p : Profile) : string :=
  if truthy (name p) then default EmptyString (name p) else login p.

(** What holds of the store in every reachable world. *)
Definition world_inv (s : Store) : Prop :=
  draw_inv s
  /\ injective_map (winners s)
  /\ (forall e, winners_json s = Some e -> expire_at e = None).

(** Every identity the store holds is the lowercasing of an identity
    that was submitted. *)
Definition lowercase_inv (s : Store) : Prop :=
  (forall x, x ∈ entrants s -> exists g, x = lower g)
  /\ (forall k v, winners s !! k = Some v -> exists g, v = lower g).

(** ** Properties of the handlers *)

Ltac run :=
  unfold bind, ret, abort, raise, read_store, write_store in *;
  simpl in *.
Ltac run_io := unfold requests_get in *; run.

(** *** ProfileCache *)

Lemma get_mono {A} now now' (k : option (entry A)) :
  now <= now' -> Redis.get now k = None -> Redis.get now' k = None.
Proof.
  unfold Redis.get, Redis.live. intros Hle.
  destruct k as [[v [t|]]|]; simpl; try done.
  destruct (now <? t) eqn:E; [done|]. intros _.
  assert ((now' <? t) = false) as -> by lia. done.
Qed.

Lemma get_github_profile_hit now github_id w p :
  Redis.get now (profiles (store w) !! github_id) = Some p ->
  get_github_profile now github_id w = (Ok (Some p), w).
Proof. intros H. unfold get_github_profile. run. by rewrite H. Qed.

Lemma get_github_profile_success now github_id w p :
  Redis.get now (profiles (store w) !! github_id) = None ->
  provider now github_id = Response 200 p ->
  get_github_profile now github_id w =
  (Ok (Some p),
   mkWorld (set_profiles
              (<[github_id := Entry p (Some (now + 3600))]> (profiles (store w)))
              (store w))
           (fetched w ++ [github_id])).
Proof. intros H Hp. unfold get_github_profile. run. by rewrite H, Hp. Qed.

Lemma get_github_profile_failure now github_id w c p :
  Redis.get now (profiles (store w) !! github_id) = None ->
  provider now github_id = Response c p -> c <> 200 ->
  get_github_profile now github_id w =
  (Ok None, mkWorld (store w) (fetched w ++ [github_id])).
Proof.
  intros H Hp Hc. unfold get_github_profile. run. rewrite H, Hp.
  by assert ((c =? 200) = false) as -> by lia.
Qed.

Lemma get_github_profile_miss_fetches now github_id w :
  Redis.get now (profiles (store w) !! github_id) = None ->
  fetched (get_github_profile now github_id w).2 = fetched w ++ [github_id].
Proof.
  intros H. unfold get_github_profile. run. rewrite H.
  destruct (provider now github_id) as [c p|]; [|done].
  by destruct (c =? 200).
Qed.

(** C7: on a cache miss [get_github_profile] asks the provider.  A 200
    answer is returned and written to the cache with an expiry 3600
    seconds ahead, and a second call before that instant returns the
    same profile without a provider request.  Any other status
    returns [None], leaves the store as it was, and a later call for
    that identity asks the provider again. *)
Theorem profile_cache_miss now github_id w
  (Hmiss : Redis.get now (profiles (store w) !! github_id) = None) :
  (forall p, provider now github_id = Response 200 p ->
     let w1 := (get_github_profile now github_id w).2 in
     (get_github_profile now github_id w).1 = Ok (Some p)
     /\ profiles (store w1) !! github_id = Some (Entry p (Some (now + 3600)))
     /\ fetched w1 = fetched w ++ [github_id]
     /\ forall now', now' < now + 3600 ->
          get_github_profile now' github_id w1 = (Ok (Some p), w1))
  /\ (forall c p, provider now github_id = Response c p -> c <> 200 ->
     let w1 := (get_github_profile now github_id w).2 in
     (get_github_profile now github_id w).1 = Ok None
     /\ store w1 = store w
     /\ fetched w1 = fetched w ++ [github_id]
     /\ forall now', now <= now' ->
          fetched (get_github_profile now' github_id w1).2
          = fetched w ++ [github_id; github_id]).
Proof.
  split.
  - intros p Hp. rewrite (get_github_profile_success _ _ _ _ Hmiss Hp).
    simpl. split_and!; try done.
    + by rewrite lookup_insert_eq.
    + intros now' Hlt. apply get_github_profile_hit. simpl.
      rewrite lookup_insert_eq. unfold Redis.get, Redis.live. simpl.
      by assert ((now' <? now + 3600) = true) as -> by lia.
  - intros c p Hp Hc.
    rewrite (get_github_profile_failure _ _ _ _ _ Hmiss Hp Hc).
    simpl. split_and!; try done.
    intros now' Hle. rewrite get_github_profile_miss_fetches; simpl.
    + by rewrite <- app_assoc.
    + by apply (get_mono now).
Qed.

(** *** EntrantRegistry *)

(** C6: when the flag is absent, [enter_prize_draw] answers 403 and
    the world is the one it started from: no request to the provider,
    no write to the profile cache and none to the entrant set. *)
Theorem enter_closed_is_rejected_first now github_id w :
  Redis.exists_ now (is_open (store w)) = 0 ->
  enter_prize_draw now github_id w = (Abort 403, w)
  /\ fetched (enter_prize_draw now github_id w).2 = fetched w
  /\ profiles (store (enter_prize_draw now github_id w).2) = profiles (store w)
  /\ entrants (store (enter_prize_draw now github_id w).2) = entrants (store w).
Proof.
  intros H.
  assert (enter_prize_draw now github_id w = (Abort 403, w)) as ->; [|done].
  unfold enter_prize_draw. run. by rewrite H.
Qed.

(** *** The random pop *)

Lemma spop_empty r : Redis.spop r ∅ = ([], ∅).
Proof. unfold Redis.spop. by rewrite elements_empty. Qed.

Lemma spop_nonempty r (k : gset string) :
  k <> ∅ -> exists x, x ∈ k /\ Redis.spop r k = ([x], k ∖ {[x]}).
Proof.
  intros Hk. unfold Redis.spop.
  assert (length (elements k) <> 0%nat) as Hlen.
  { intros Hl. apply Hk, leibniz_equiv, elements_empty_inv.
    by apply length_zero_iff_nil. }
  destruct (lookup_lt_is_Some_2 (elements k)
              (r mod length (elements k))%nat) as [x Hx].
  { by apply Nat.mod_upper_bound. }
  exists x. rewrite Hx. split; [|done].
  apply elem_of_elements. by eapply list_elem_of_lookup_2.
Qed.

(** Every member can be the one the server pops. *)
Lemma spop_any (k : gset string) x :
  x ∈ k -> exists r, Redis.spop r k = ([x], k ∖ {[x]}).
Proof.
  intros Hx. apply elem_of_elements, list_elem_of_lookup in Hx as [i Hi].
  exists i. unfold Redis.spop.
  rewrite Nat.mod_small; [by rewrite Hi|]. by eapply lookup_lt_Some.
Qed.

(** *** The allocation loop *)

Definition loop_pre (acc : gmap string string) (P E : gset string) : Prop :=
  dom acc ## P
  /\ (forall k v, acc !! k = Some v -> v ∉ E)
  /\ injective_map acc.

Definition loop_post (acc : gmap string string) (P E : gset string)
  (m : gmap string string) (P' E' : gset string) : Prop :=
  dom m ⊆ dom acc ∪ P
  /\ (forall k v, m !! k = Some v -> acc !! k = Some v \/ v ∈ E)
  /\ injective_map m
  /\ size m = (size acc + Nat.min (size P) (size E))%nat
  /\ P' ⊆ P /\ E' ⊆ E
  /\ (P = ∅ -> m = acc /\ P' = ∅ /\ E' = E)
  /\ (E = ∅ -> m = acc /\ E' = ∅ /\ size P' = pred (size P)).

Lemma draw_loop_spec rnd fuel : forall k acc w,
  (size (prizes (store w)) < fuel)%nat ->
  loop_pre acc (prizes (store w)) (entrants (store w)) ->
  exists m P' E',
    draw_loop fuel rnd k acc w =
      (Ok m, mkWorld (set_entrants E' (set_prizes P' (store w))) (fetched w))
    /\ loop_post acc (prizes (store w)) (entrants (store w)) m P' E'.
Proof.
  clear provider lower field_order.
  induction fuel as [|fuel IH]; intros k acc [s f] Hfuel Hpre; [lia|].
  simpl in *. run. destruct Hpre as (Hdisj & Hval & Hinj).
  destruct (decide (prizes s = ∅)) as [HP|HP].
  { rewrite HP, spop_empty. exists acc, ∅, (entrants s). split.
    - by rewrite <- HP; destruct s.
    - unfold loop_post. rewrite size_empty. simpl.
      split_and!.
      + set_solver.
      + intros k' v Hk'. by left.
      + done.
      + lia.
      + done.
      + done.
      + done.
      + intros HE. by split_and!. }
  destruct (spop_nonempty (rnd k) _ HP) as (x & Hx & ->). simpl.
  assert (size (prizes s) = S (size (prizes s ∖ {[x]}))) as HsP.
  { rewrite (size_difference (prizes s) {[x]}) by set_solver.
    rewrite size_singleton.
    assert (size (prizes s) <> 0%nat) by (by intros ?%size_empty_inv%leibniz_equiv).
    lia. }
  destruct (decide (entrants s = ∅)) as [HE|HE].
  { rewrite HE, spop_empty. exists acc, (prizes s ∖ {[x]}), ∅. split.
    - done.
    - unfold loop_post. rewrite size_empty, Nat.min_0_r.
      split_and!.
      + set_solver.
      + intros k' v Hk'. by left.
      + done.
      + lia.
      + set_solver.
      + done.
      + by intros ?.
      + intros _. split_and!; [done | done | lia]. }
  destruct (spop_nonempty (rnd (S k)) _ HE) as (y & Hy & ->). simpl.
  assert (size (entrants s) = S (size (entrants s ∖ {[y]}))) as HsE.
  { rewrite (size_difference (entrants s) {[y]}) by set_solver.
    rewrite size_singleton.
    assert (size (entrants s) <> 0%nat) by (by intros ?%size_empty_inv%leibniz_equiv).
    lia. }
  assert (acc !! x = None) as Hfresh.
  { apply not_elem_of_dom. set_solver. }
  destruct (IH (S (S k)) (<[x:=y]> acc)
              (mkWorld (set_entrants (entrants s ∖ {[y]})
                          (set_prizes (prizes s ∖ {[x]}) s)) f))
    as (m & P' & E' & Heq & Hpost).
  { simpl. lia. }
  { simpl. split_and!.
    - rewrite dom_insert_L. set_solver.
    - intros k' v Hk'. destruct (decide (x = k')) as [<-|Hne].
      + rewrite lookup_insert_eq in Hk'. set_solver.
      + rewrite lookup_insert_ne in Hk' by done.
        specialize (Hval _ _ Hk'). set_solver.
    - intros k1 k2 v H1 H2.
      destruct (decide (x = k1)) as [<-|Hn1], (decide (x = k2)) as [<-|Hn2];
        try done.
      + rewrite lookup_insert_eq in H1. rewrite lookup_insert_ne in H2 by done.
        simplify_eq. by destruct (Hval _ _ H2).
      + rewrite lookup_insert_eq in H2. rewrite lookup_insert_ne in H1 by done.
        simplify_eq. by destruct (Hval _ _ H1).
      + rewrite lookup_insert_ne in H1, H2 by done. by eapply Hinj. }
  simpl in *. exists m, P', E'. split; [exact Heq|].
  destruct Hpost as (Hd & Hv & Hi & Hs & HP' & HE' & _ & _).
  unfold loop_post. split_and!; try done.
  - rewrite dom_insert_L in Hd. set_solver.
  - intros k' v Hk'. destruct (Hv _ _ Hk') as [Hin|Hin]; [|set_solver].
    destruct (decide (x = k')) as [<-|Hne].
    + rewrite lookup_insert_eq in Hin. simplify_eq. by right.
    + rewrite lookup_insert_ne in Hin by done. by left.
  - rewrite Hs, map_size_insert_None by done. lia.
  - set_solver.
  - set_solver.
Qed.

Arguments draw_loop : simpl never.

(** What [draw_prizes] does for an authenticated caller, in terms of
    the mapping [m] the loop builds: with an empty [m] the client
    raises before anything is stored and the entrants are not
    cleaned up. *)
Lemma draw_prizes_spec rnd w :
  let s0 := set_is_open None (store w) in
  exists m P' E',
    loop_post ∅ (prizes (store w)) (entrants (store w)) m P' E'
    /\ draw_loop (S (size (prizes (store w)))) rnd 0 ∅
         (mkWorld s0 (fetched w))
       = (Ok m, mkWorld (set_entrants E' (set_prizes P' s0)) (fetched w))
    /\ draw_prizes true rnd w =
       if decide (m = ∅) then
         (Raise DataError,
          mkWorld (set_entrants E' (set_prizes P' s0)) (fetched w))
       else
         (Ok "OK"%string,
          mkWorld (set_entrants ∅
                     (set_winners (m ∪ winners (store w))
                        (set_prizes P' s0))) (fetched w)).
Proof.
  clear provider lower field_order.
  intros s0. unfold draw_prizes.
  destruct (draw_loop_spec rnd (S (size (prizes (store w)))) 0 ∅
              (mkWorld s0 (fetched w))) as (m & P' & E' & Heq & Hpost).
  { simpl. lia. }
  { split_and!; [set_solver | by intros ?? ?%lookup_empty_Some
                 | by intros ??? ?%lookup_empty_Some]. }
  exists m, P', E'. split_and!; [exact Hpost | exact Heq |].
  run. fold s0. rewrite Heq. simpl.
  unfold Redis.hmset.
  by destruct (decide (m = ∅)).
Qed.

Lemma loop_post_matching m P E P' E' :
  loop_post ∅ P E m P' E' -> matching m P E.
Proof.
  clear provider lower field_order.
  intros (Hd & Hv & Hi & Hs & _). unfold matching. split_and!.
  - set_solver.
  - intros k v Hk. by destruct (Hv _ _ Hk) as [?%lookup_empty_Some|].
  - done.
  - rewrite Hs, map_size_empty. lia.
Qed.

(** *** What the handlers leave untouched *)

Lemma get_github_profile_same_draw now github_id w :
  same_draw (store w) (store (get_github_profile now github_id w).2).
Proof.
  unfold get_github_profile, same_draw. run.
  repeat (case_match; simpl in *; simplify_eq); done.
Qed.

Lemma winner_loop_same_draw now items : forall acc w,
  same_draw (store w) (store (winner_loop now items acc w).2).
Proof.
  induction items as [|[prize winner_id] rest IH]; intros acc w; simpl.
  { by unfold same_draw. }
  unfold bind.
  pose proof (get_github_profile_same_draw now winner_id w) as Hf.
  destruct (get_github_profile now winner_id w) as [[[p|]| | |] w1];
    simpl in *; try done.
  specialize (IH (acc ++ [mkWinner
     (if truthy (name p) then default EmptyString (name p) else login p)
     prize (avatar_url p)]) w1).
  destruct Hf as (?&?&?&?&?), IH as (?&?&?&?&?).
  unfold same_draw. split_and!; congruence.
Qed.

Lemma get_winners_frame now w :
  let s' := store (get_winners now w).2 in
  is_open s' = is_open (store w) /\ entrants s' = entrants (store w)
  /\ prizes s' = prizes (store w) /\ winners s' = winners (store w).
Proof.
  unfold get_winners. run.
  destruct (Redis.get now (winners_json (store w))); simpl; [done|].
  unfold Redis.hgetall. case_decide; simpl; [done|].
  pose proof (winner_loop_same_draw now (field_order (winners (store w))) [] w)
    as (?&?&?&?&?).
  destruct (winner_loop now (field_order (winners (store w))) [] w)
    as [[l| | |] w1]; simpl in *; done.
Qed.

Lemma enter_prize_draw_frame now github_id w :
  let s' := store (enter_prize_draw now github_id w).2 in
  is_open s' = is_open (store w) /\ prizes s' = prizes (store w)
  /\ winners s' = winners (store w)
  /\ winners_json s' = winners_json (store w).
Proof.
  unfold enter_prize_draw. run.
  destruct (Redis.exists_ now (is_open (store w)) =? 0); simpl; [done|].
  pose proof (get_github_profile_same_draw now (lower github_id) w)
    as (?&?&?&?&?).
  destruct (get_github_profile now (lower github_id) w)
    as [[[p|]| | |] w1]; simpl in *; try done.
  by destruct (_ =? 0).
Qed.

(** *** The draw invariant *)

Lemma step_draw_inv w w' :
  step w w' -> draw_inv (store w) -> draw_inv (store w').
Proof.
  unfold draw_inv. intros Hstep Hinv.
  destruct Hstep as [auth pl duration now w | now github_id w | auth w
                    | auth rnd w | now w].
  - unfold start_new_draw. run.
    destruct auth; simpl; [|done].
    destruct pl as [|x l]; simpl; [done|].
    destruct (Redis.set _ _ _); simpl; by left.
  - destruct (Redis.exists_ now (is_open (store w))) eqn:Hopen.
    + unfold enter_prize_draw. run. by rewrite Hopen.
    + pose proof (enter_prize_draw_frame now github_id w) as (Ho & _ & Hw & _).
      simpl in *. left. rewrite Hw. destruct Hinv as [|[Hn _]]; [done|].
      unfold Redis.exists_ in Hopen. by rewrite Hn in Hopen.
    + pose proof (enter_prize_draw_frame now github_id w) as (Ho & _ & Hw & _).
      simpl in *. left. rewrite Hw. destruct Hinv as [|[Hn _]]; [done|].
      unfold Redis.exists_ in Hopen. by rewrite Hn in Hopen.
  - unfold end_draw. run. destruct auth; simpl; [|done].
    destruct Hinv as [|[? ?]]; [by left | by right].
  - destruct auth; [|done].
    destruct (draw_prizes_spec rnd w) as (m & P' & E' & Hpost & _ & ->).
    destruct (decide (m = ∅)); simpl; [|by right].
    destruct Hinv as [|[_ HE]]; [by left|]. right. split; [done|].
    destruct Hpost as (_&_&_&_&_&HE'&_). rewrite HE in HE'. set_solver.
  - by pose proof (get_winners_frame now w) as (-> & -> & _ & ->).
Qed.

Lemma reachable_draw_inv w : reachable w -> draw_inv (store w).
Proof.
  induction 1 as [|w w' _ IH Hstep]; [by left|].
  by eapply step_draw_inv.
Qed.

Lemma step_exclusive w w' :
  step w w' ->
  is_open (store w) = None \/ winners (store w) = ∅ ->
  is_open (store w') = None \/ winners (store w') = ∅.
Proof.
  intros Hstep Hinv.
  destruct Hstep as [auth pl duration now w | now github_id w | auth w
                    | auth rnd w | now w].
  - unfold start_new_draw. run.
    destruct auth; simpl; [|done].
    destruct pl as [|x l]; simpl; [done|].
    destruct (Redis.set _ _ _); simpl; by right.
  - by pose proof (enter_prize_draw_frame now github_id w) as (-> & _ & -> & _).
  - unfold end_draw. run. destruct auth; simpl; [by left | done].
  - destruct auth; [|done].
    destruct (draw_prizes_spec rnd w) as (m & P' & E' & _ & _ & ->).
    destruct (decide (m = ∅)); simpl; by left.
  - by pose proof (get_winners_frame now w) as (-> & _ & _ & ->).
Qed.

(** C3: every core operation keeps "flag absent or winners absent",
    so in every world reachable from the empty store, at every
    instant, [is_open] and [winners] do not both exist. *)
Theorem flag_and_winners_never_both :
  (forall w w', step w w' ->
     is_open (store w) = None \/ winners (store w) = ∅ ->
     is_open (store w') = None \/ winners (store w') = ∅)
  /\ (forall w, reachable w ->
        (is_open (store w) = None \/ winners (store w) = ∅)
        /\ forall now,
             ~ (Redis.exists_ now (is_open (store w)) = 1
                /\ Redis.exists_hash (winners (store w)) = 1)).
Proof.
  split; [exact step_exclusive|].
  intros w Hw. apply reachable_draw_inv in Hw.
  assert (is_open (store w) = None \/ winners (store w) = ∅) as Hex.
  { destruct Hw as [|[? _]]; [by right | by left]. }
  split; [done|]. intros now [Hf Hh].
  destruct Hex as [Hn|Hn]; rewrite Hn in *.
  - by vm_compute in Hf.
  - unfold Redis.exists_hash in Hh. by rewrite decide_True in Hh.
Qed.

(** *** PrizeAllocator *)

(** C1: the mapping [m] that the loop of [draw_prizes] builds is an
    injective partial matching of prizes to entrants of size
    [min |prizes| |entrants|], for every store and every stream of
    random pops.  When neither set is empty the handler succeeds and
    writes [m] over the [winners] hash, which then is exactly [m] in
    every reachable world.  For prizes {A, B} and entrants {x, y, z}
    the mapping has size 2, its keys are exactly A and B, and its
    values are distinct members of {x, y, z}. *)
Theorem draw_prizes_is_matching rnd w :
  let P := prizes (store w) in
  let E := entrants (store w) in
  let w' := (draw_prizes true rnd w).2 in
  exists m,
    (draw_loop (S (size P)) rnd 0 ∅
       (mkWorld (set_is_open None (store w)) (fetched w))).1 = Ok m
    /\ matching m P E
    /\ (P <> ∅ -> E <> ∅ ->
        (draw_prizes true rnd w).1 = Ok "OK"%string
        /\ winners (store w') = m ∪ winners (store w)
        /\ (winners (store w) = ∅ -> winners (store w') = m)
        /\ (reachable w -> winners (store w') = m))
    /\ (P = {["A"; "B"]} -> E = {["x"; "y"; "z"]} ->
        (draw_prizes true rnd w).1 = Ok "OK"%string
        /\ size m = 2%nat
        /\ dom m = {["A"; "B"]}
        /\ (forall k v, m !! k = Some v -> v ∈ ({["x"; "y"; "z"]} : gset string))
        /\ injective_map m).
Proof.
  intros P E w'. subst P E w'.
  destruct (draw_prizes_spec rnd w) as (m & P' & E' & Hpost & Heq & Hdp).
  apply loop_post_matching in Hpost as Hm.
  destruct Hm as (Hdom & Hval & Hinj & Hsize).
  assert (prizes (store w) <> ∅ -> entrants (store w) <> ∅ ->
          (draw_prizes true rnd w).1 = Ok "OK"%string
          /\ winners (store (draw_prizes true rnd w).2)
             = m ∪ winners (store w)) as Hok.
  { intros HP HE. rewrite Hdp.
    assert (m <> ∅) as Hne.
    { intros ->. rewrite map_size_empty in Hsize.
      assert (size (prizes (store w)) <> 0%nat)
        by (by intros ?%size_empty_inv%leibniz_equiv).
      assert (size (entrants (store w)) <> 0%nat)
        by (by intros ?%size_empty_inv%leibniz_equiv).
      lia. }
    by rewrite decide_False. }
  exists m. split_and!.
  - by rewrite Heq.
  - done.
  - intros HP HE. destruct (Hok HP HE) as [Hr Hw].
    split_and!; try done.
    + intros Hold. by rewrite Hw, Hold, (right_id_L ∅ (∪)).
    + intros Hreach. apply reachable_draw_inv in Hreach as [Hold|[_ ?]];
        [|done]. by rewrite Hw, Hold, (right_id_L ∅ (∪)).
  - intros HP HE. rewrite HP, HE in *.
    assert (size ({["A"; "B"]} : gset string) = 2%nat) as HsP by done.
    assert (size ({["x"; "y"; "z"]} : gset string) = 3%nat) as HsE by done.
    rewrite HsP, HsE in Hsize. simpl in Hsize.
    split_and!; try done.
    + apply Hok; intros Hc; apply (f_equal size) in Hc;
        rewrite size_empty in Hc; congruence.
    + apply set_subseteq_size_eq; [done|]. rewrite size_dom, HsP. lia.
Qed.

(** *** WinnerView *)

Lemma get_github_profile_live now github_id w r w1 :
  get_github_profile now github_id w = (r, w1) ->
  (forall p, r = Ok (Some p) ->
     Redis.get now (profiles (store w1) !! github_id) = Some p)
  /\ (forall id' q,
        Redis.get now (profiles (store w) !! id') = Some q ->
        Redis.get now (profiles (store w1) !! id') = Some q).
Proof.
  unfold get_github_profile. run.
  destruct (Redis.get now (profiles (store w) !! github_id)) as [c|] eqn:Hc;
    simpl.
  { intros [= <- <-]. split; [by intros p [= <-]|done]. }
  destruct (provider now github_id) as [code prof|]; simpl.
  - destruct (code =? 200); simpl; intros [= <- <-]; simpl.
    + split.
      * intros p [= <-]. rewrite lookup_insert_eq.
        unfold Redis.get, Redis.live. simpl.
        by assert ((now <? now + 3600) = true) as -> by lia.
      * intros id' q Hq. destruct (decide (github_id = id')) as [<-|Hn].
        -- congruence.
        -- by rewrite lookup_insert_ne.
    + by split.
  - intros [= <- <-]. by split.
Qed.

Lemma winner_loop_records now items : forall acc w l w',
  winner_loop now items acc w = (Ok l, w') ->
  (forall id q, Redis.get now (profiles (store w) !! id) = Some q ->
                Redis.get now (profiles (store w') !! id) = Some q)
  /\ exists recs,
       l = acc ++ recs
       /\ Forall2 (fun item rec =>
                     exists p,
                       Redis.get now (profiles (store w') !! item.2) = Some p
                       /\ rec = mkWinner (display_name p) item.1 (avatar_url p))
            items recs.
Proof.
  induction items as [|[prize winner_id] rest IH]; intros acc w l w' H;
    simpl in H.
  { run. simplify_eq. split; [done|]. exists []. by rewrite app_nil_r. }
  unfold bind in H.
  destruct (get_github_profile now winner_id w) as [r w1] eqn:Hget.
  apply get_github_profile_live in Hget as [Hnew Hold].
  destruct r as [[p|]| | |]; simpl in H; try done.
  apply IH in H as (Hkeep & recs & -> & Hall).
  split; [by intros id q ?%Hold%Hkeep|].
  exists (mkWinner (display_name p) prize (avatar_url p) :: recs).
  split; [by rewrite <- app_assoc|].
  constructor; [|done]. exists p. split; [|done].
  apply Hkeep. by apply Hnew.
Qed.

Lemma get_winners_computes now w r w' :
  Redis.get now (winners_json (store w)) = None ->
  winners (store w) <> ∅ ->
  get_winners now w = (Ok r, w') ->
  exists l, r = Some l
    /\ Forall2 (fun item rec =>
                  exists p,
                    Redis.get now (profiles (store w') !! item.2) = Some p
                    /\ rec = mkWinner (display_name p) item.1 (avatar_url p))
         (field_order (winners (store w))) l
    /\ winners_json (store w') = Some (Entry l None).
Proof.
  intros Hj Hw. unfold get_winners. run. rewrite Hj.
  unfold Redis.hgetall. rewrite decide_False by done. simpl.
  destruct (winner_loop now (field_order (winners (store w))) [] w)
    as [[l| | |] w1] eqn:Hloop; simpl; try done.
  intros [= <- <-]. exists l. split_and!; try done.
  by apply winner_loop_records in Hloop as (_ & recs & -> & Hall).
Qed.

(** What the records of a computed view are, whatever the order in
    which the reply lists the fields. *)
Lemma joined_records now (h : gmap string string) items l
  (profiles' : gmap string (entry Profile)) :
  items ≡ₚ map_to_list h ->
  Forall2 (fun item rec =>
             exists p,
               Redis.get now (profiles' !! item.2) = Some p
               /\ rec = mkWinner (display_name p) item.1 (avatar_url p))
    items l ->
  winner_prize <$> l ≡ₚ (map_to_list h).*1
  /\ (forall rec, rec ∈ l ->
        exists id p,
          h !! winner_prize rec = Some id
          /\ Redis.get now (profiles' !! id) = Some p
          /\ winner_name rec = display_name p
          /\ winner_image rec = avatar_url p)
  /\ length l = size h.
Proof.
  intros Hperm Hall. split_and!.
  - rewrite <- Hperm. clear Hperm.
    induction Hall as [|[prize id] rec items l (p & _ & ->) _ IH]; [done|].
    simpl. by rewrite IH.
  - intros rec Hrec.
    apply list_elem_of_lookup in Hrec as [i Hi].
    destruct (Forall2_lookup_r _ _ _ _ _ Hall Hi)
      as ([prize id] & Hitem & p & Hp & ->).
    exists id, p. simpl. split_and!; try done.
    apply elem_of_map_to_list. rewrite <- Hperm.
    by eapply list_elem_of_lookup_2.
  - rewrite <- (Forall2_length _ _ _ Hall), Hperm.
    apply length_map_to_list.
Qed.

(** C10: with [winners_json] and [winners] both absent, [get_winners]
    returns [None] and the world is unchanged: nothing is cached.  So
    after an allocation that stored winners, a call that returns does
    not answer [None]: it returns and caches the list computed from
    the stored winners, which has one record per stored prize (in the
    order the reply lists them), each with the display name and avatar
    of that prize's winner. *)
Theorem get_winners_empty_is_not_cached now w
  (Hjson : Redis.get now (winners_json (store w)) = None)
  (Hwinners : winners (store w) = ∅) :
  get_winners now w = (Ok None, w)
  /\ forall rnd now' r w3,
       let w1 := (get_winners now w).2 in
       let w2 := (draw_prizes true rnd w1).2 in
       field_order (winners (store w2))
         ≡ₚ map_to_list (winners (store w2)) ->
       (draw_prizes true rnd w1).1 = Ok "OK"%string ->
       Redis.get now' (winners_json (store w)) = None ->
       get_winners now' w2 = (Ok r, w3) ->
       exists l, r = Some l
         /\ winner_prize <$> l ≡ₚ (map_to_list (winners (store w2))).*1
         /\ (forall rec, rec ∈ l ->
               exists id p,
                 winners (store w2) !! winner_prize rec = Some id
                 /\ Redis.get now' (profiles (store w3) !! id) = Some p
                 /\ winner_name rec
                    = (if truthy (name p) then default EmptyString (name p)
                       else login p)
                 /\ winner_image rec = avatar_url p)
         /\ l <> []
         /\ winners_json (store w3) = Some (Entry l None).
Proof.
  assert (get_winners now w = (Ok None, w)) as Hnone.
  { unfold get_winners. run. rewrite Hjson. unfold Redis.hgetall.
    by rewrite decide_True. }
  split; [done|]. rewrite Hnone. simpl.
  intros rnd now' r w3 Hperm Hok Hj' Hget.
  destruct (draw_prizes_spec rnd w) as (m & P' & E' & _ & _ & Hdp).
  rewrite Hdp in Hok, Hget, Hperm |- *.
  destruct (decide (m = ∅)) as [|Hm]; simpl in *; [done|].
  assert (m ∪ winners (store w) <> ∅) as Hne.
  { by intros ?%map_positive_l. }
  apply get_winners_computes in Hget as (l & -> & Hall & Hc); [|done|done].
  simpl in Hall.
  destruct (joined_records _ _ _ _ _ Hperm Hall) as (Hpz & Hrec & Hlen).
  exists l. split_and!; try done.
  intros ->. simpl in Hlen. symmetry in Hlen.
  by apply map_size_empty_inv in Hlen.
Qed.

(** *** EntrantRegistry, continued *)

Lemma sadd_one x (k : gset string) :
  Redis.sadd [x] k = Some (if decide (x ∈ k) then 0 else 1, k ∪ {[x]}).
Proof.
  clear provider lower field_order.
  unfold Redis.sadd. simpl. rewrite (right_id_L ∅ (∪)). do 2 f_equal.
  case_decide.
  - replace ({[x]} ∖ k) with (∅ : gset string) by set_solver.
    by rewrite size_empty.
  - replace ({[x]} ∖ k) with ({[x]} : gset string) by set_solver.
    by rewrite size_singleton.
Qed.

(** With the draw open and the profile resolved, the outcome is read
    off the reply of [SADD]. *)
Lemma enter_prize_draw_open now github_id w p w1 :
  Redis.exists_ now (is_open (store w)) = 1 ->
  get_github_profile now (lower github_id) w = (Ok (Some p), w1) ->
  exists member_added entrants',
    Redis.sadd [lower github_id] (entrants (store w1))
      = Some (member_added, entrants')
    /\ (member_added = 0 <-> lower github_id ∈ entrants (store w))
    /\ entrants' = entrants (store w) ∪ {[lower github_id]}
    /\ enter_prize_draw now github_id w =
       (if member_added =? 0 then Abort 400 else Ok p,
        mkWorld (set_entrants entrants' (store w1)) (fetched w1)).
Proof.
  intros Hopen Hget.
  pose proof (get_github_profile_same_draw now (lower github_id) w)
    as (_ & He & _).
  rewrite Hget in He. simpl in He.
  eexists _, _. split; [apply sadd_one|]. rewrite He. split_and!.
  - case_decide; naive_solver.
  - done.
  - unfold enter_prize_draw. run. rewrite Hopen. simpl.
    rewrite Hget. simpl.
    pose proof (sadd_one (lower github_id) (entrants (store w1))) as Hs.
    unfold Redis.sadd in Hs. simpl in Hs. injection Hs as -> ->.
    rewrite He.
    by destruct (decide (lower github_id ∈ entrants (store w))).
Qed.

Lemma get_github_profile_resolves now github_id w :
  (exists p, provider now github_id = Response 200 p) ->
  exists p w1, get_github_profile now github_id w = (Ok (Some p), w1).
Proof.
  intros [p Hp].
  destruct (Redis.get now (profiles (store w) !! github_id)) as [q|] eqn:Hc.
  - eexists _, _. by apply get_github_profile_hit.
  - eexists _, _. by apply get_github_profile_success.
Qed.

Lemma enter_all_rejected x calls : forall w,
  (forall t, exists p, provider t x = Response 200 p) ->
  x ∈ entrants (store w) ->
  Forall (fun c => Redis.exists_ c.1 (is_open (store w)) = 1
                   /\ lower c.2 = x) calls ->
  Forall (fun r => r = Abort 400) (enter_all calls w).1
  /\ length (enter_all calls w).1 = length calls
  /\ entrants (store (enter_all calls w).2) = entrants (store w).
Proof.
  induction calls as [|[t github_id] rest IH]; intros w Hp Hx Hall; simpl.
  { by split_and!. }
  apply Forall_cons in Hall as [[Hopen Hlow] Hall]. simpl in *.
  destruct (get_github_profile_resolves t (lower github_id) w)
    as (p & w1 & Hget); [by rewrite Hlow|].
  destruct (enter_prize_draw_open _ _ _ _ _ Hopen Hget)
    as (d & e' & _ & Hd & -> & Henter).
  pose proof (enter_prize_draw_frame t github_id w) as (Hflag & _).
  rewrite Henter in *. simpl in *.
  assert (d = 0) as -> by (apply Hd; by rewrite Hlow). simpl.
  assert (entrants (store w) ∪ {[lower github_id]} = entrants (store w))
    as Hsame by (rewrite Hlow; set_solver).
  rewrite Hsame in *.
  specialize (IH (mkWorld (set_entrants (entrants (store w)) (store w1))
                    (fetched w1)) Hp).
  simpl in IH. rewrite Hflag in IH. specialize (IH Hx Hall).
  destruct (enter_all rest _) as [rs w2]. simpl in *.
  destruct IH as (? & ? & ?). split_and!; [by constructor | by f_equal | done].
Qed.

(** C5: let the provider resolve the identity.  While the flag is
    present, a request for an identity (in any letter case) whose
    lowercased form is not yet an entrant succeeds, returns the
    profile (the cached one when the cache holds it, else the one the
    provider answers) and adds the lowercased form; every later
    request with the same lowercased form answers 400 and leaves the
    entrants as they are.  Which of the two happens is read off the
    count that [SADD] reports: 400 exactly when it is 0. *)
Theorem register_once now github_id calls w
  (Hprovider : forall t, exists p, provider t (lower github_id) = Response 200 p)
  (Hopen : Redis.exists_ now (is_open (store w)) = 1)
  (Hfirst : lower github_id ∉ entrants (store w))
  (Hlater : Forall (fun c => Redis.exists_ c.1 (is_open (store w)) = 1
                             /\ lower c.2 = lower github_id) calls) :
  exists p w1,
    (forall c, Redis.get now (profiles (store w) !! lower github_id) = Some c ->
               p = c)
    /\ (Redis.get now (profiles (store w) !! lower github_id) = None ->
        provider now (lower github_id) = Response 200 p)
    /\ (get_github_profile now (lower github_id) w).1 = Ok (Some p)
    /\ enter_prize_draw now github_id w = (Ok p, w1)
    /\ w1 = mkWorld
              (set_entrants (entrants (store w) ∪ {[lower github_id]})
                 (store (get_github_profile now (lower github_id) w).2))
              (fetched (get_github_profile now (lower github_id) w).2)
    /\ entrants (store w1) = entrants (store w) ∪ {[lower github_id]}
    /\ Forall (fun r => r = Abort 400) (enter_all calls w1).1
    /\ length (enter_all calls w1).1 = length calls
    /\ entrants (store (enter_all calls w1).2) = entrants (store w1)
    /\ forall t id' w2 p2 w3,
         Redis.exists_ t (is_open (store w2)) = 1 ->
         get_github_profile t (lower id') w2 = (Ok (Some p2), w3) ->
         exists member_added entrants',
           Redis.sadd [lower id'] (entrants (store w3))
             = Some (member_added, entrants')
           /\ (enter_prize_draw t id' w2).1
              = if member_added =? 0 then Abort 400 else Ok p2.
Proof.
  assert (exists p w0,
            get_github_profile now (lower github_id) w = (Ok (Some p), w0)
            /\ (forall c,
                  Redis.get now (profiles (store w) !! lower github_id)
                  = Some c -> p = c)
            /\ (Redis.get now (profiles (store w) !! lower github_id) = None ->
                provider now (lower github_id) = Response 200 p))
    as (p & w0 & Hget & Hcached & Hfetched).
  { destruct (Redis.get now (profiles (store w) !! lower github_id))
      as [c|] eqn:Hc.
    - exists c, w. split_and!; [by apply get_github_profile_hit
                               | by intros ? [= <-] | done].
    - destruct (Hprovider now) as [q Hq]. eexists q, _.
      split_and!; [by apply get_github_profile_success | done | done]. }
  destruct (enter_prize_draw_open _ _ _ _ _ Hopen Hget)
    as (d & e' & _ & Hd & -> & Henter).
  assert (d <> 0) as Hd0 by naive_solver.
  assert ((d =? 0) = false) as Hdb by lia. rewrite Hdb in Henter.
  pose proof (enter_prize_draw_frame now github_id w) as (Hflag & _).
  rewrite Henter in Hflag. simpl in Hflag.
  destruct (enter_all_rejected (lower github_id) calls
              (mkWorld (set_entrants
                          (entrants (store w) ∪ {[lower github_id]})
                          (store w0)) (fetched w0)))
    as (Hall & Hlen & Hents).
  { done. }
  { simpl. set_solver. }
  { simpl. by rewrite Hflag. }
  eexists p, _. split_and!; [exact Hcached | exact Hfetched | by rewrite Hget
                            | exact Henter | by rewrite Hget | done
                            | exact Hall | exact Hlen | exact Hents |].
  - intros t id' w2 p2 w3 Ho Hg.
    destruct (enter_prize_draw_open _ _ _ _ _ Ho Hg)
      as (d' & e'' & Hs & _ & _ & He).
    exists d', e''. split; [done|]. by rewrite He.
Qed.

(** *** Opening a draw *)

Lemma set_accepts {A} (v : A) now d :
  0 < d -> Redis.expiry_fits now d ->
  Redis.set v (Some d) now = Some (Entry v (Some (now + d))).
Proof.
  unfold Redis.expiry_fits, Redis.LLONG_MAX, Redis.set, Redis.EX_MAX.
  intros Hd [Hnow Hfit].
  assert ((0 <? d) = true) as -> by lia.
  by assert ((d <=? 9223372036854775) = true) as -> by lia.
Qed.

Lemma start_new_draw_store pl duration now w :
  pl <> [] ->
  duration = 0 \/ (0 < duration /\ Redis.expiry_fits now duration) ->
  start_new_draw true pl duration now w
  = (Ok "OK"%string,
     mkWorld
       (mkStore
          (Some (Entry "true"%string
                   (if duration =? 0 then None else Some (now + duration))))
          ∅ (list_to_set pl) ∅ None (profiles (store w)))
       (fetched w)).
Proof.
  clear provider lower field_order.
  intros Hpl Hd. unfold start_new_draw. cbv zeta.
  assert (Redis.set "true"%string
            (if duration =? 0 then None else Some duration) now
          = Some (Entry "true"%string
                    (if duration =? 0 then None else Some (now + duration))))
    as Hset.
  { destruct Hd as [->|[Hpos Hfit]]; [done|].
    assert ((duration =? 0) = false) as -> by lia. by apply set_accepts. }
  rewrite Hset. destruct pl as [|x l]; [done|].
  unfold bind, ret, write_store. simpl. by rewrite (left_id_L ∅ (∪)).
Qed.

(** C9 (amended): for every prior store content, [start_new_draw] by
    an authenticated caller with a non-empty prize list and a duration
    that is 0, or positive with an expiry instant the server's clock
    holds, answers OK and leaves [winners], [winners_json] and
    [entrants] absent, [prizes] equal to the given prizes, and
    [is_open] present, expiring [duration] seconds ahead, or never when
    the duration is 0. *)
Theorem start_new_draw_replaces_draw pl duration now w :
  pl <> [] ->
  duration = 0 \/ (0 < duration /\ Redis.expiry_fits now duration) ->
  (start_new_draw true pl duration now w).1 = Ok "OK"%string
  /\ opened_with pl duration now
       (store (start_new_draw true pl duration now w).2)
  /\ Redis.exists_ now
       (is_open (store (start_new_draw true pl duration now w).2)) = 1.
Proof.
  intros Hpl Hd. rewrite start_new_draw_store by done.
  unfold opened_with. simpl. split_and!; try done.
  unfold Redis.exists_, Redis.get, Redis.live. simpl.
  destruct Hd as [->|[Hpos _]]; [done|].
  assert ((duration =? 0) = false) as -> by lia.
  by assert ((now <? now + duration) = true) as -> by lia.
Qed.

(** C4: when the prize set or the entrant set is empty the loop
    builds an empty mapping, and [draw_prizes] does not answer OK: the
    store client refuses the empty mapping and the handler ends in
    [DataError].  The [winners] hash is left as it was; with no prize
    the entrants are not cleaned up, and with no entrant exactly one
    prize has been popped and the others stay in the set. *)
Theorem draw_prizes_raises_on_empty_side rnd w :
  prizes (store w) = ∅ \/ entrants (store w) = ∅ ->
  let w' := (draw_prizes true rnd w).2 in
  (draw_prizes true rnd w).1 = Raise DataError
  /\ winners (store w') = winners (store w)
  /\ (prizes (store w) = ∅ -> entrants (store w') = entrants (store w))
  /\ (entrants (store w) = ∅ ->
      size (prizes (store w')) = pred (size (prizes (store w)))).
Proof.
  clear provider lower field_order.
  intros Hside w'. subst w'.
  destruct (draw_prizes_spec rnd w) as (m & P' & E' & Hpost & _ & ->).
  destruct Hpost as (_&_&_&_&_&_& HP & HE).
  assert (m = ∅) as -> by (destruct Hside; naive_solver).
  rewrite decide_True by done. simpl. split_and!; try done.
  - intros H. by destruct (HP H) as (_ & _ & ->).
  - intros H. by destruct (HE H) as (_ & _ & ->).
Qed.

(** ** Further properties of the handlers *)

Lemma enter_prize_draw_closed now github_id w :
  Redis.exists_ now (is_open (store w)) = 0 ->
  enter_prize_draw now github_id w = (Abort 403, w).
Proof. intros H. unfold enter_prize_draw. run. by rewrite H. Qed.

Lemma exists_0_or_1 {A} now (k : option (entry A)) :
  Redis.exists_ now k = 0 \/ Redis.exists_ now k = 1.
Proof. unfold Redis.exists_. destruct (Redis.get now k); auto. Qed.

(** [enter_prize_draw] on an open draw, by the outcome of the lookup. *)
Lemma enter_prize_draw_lookup now github_id w :
  Redis.exists_ now (is_open (store w)) = 1 ->
  enter_prize_draw now github_id w =
  match get_github_profile now (lower github_id) w with
  | (Ok (Some p), w1) =>
      (if decide (lower github_id ∈ entrants (store w1))
       then Abort 400 else Ok p,
       mkWorld (set_entrants (entrants (store w1) ∪ {[lower github_id]})
                  (store w1)) (fetched w1))
  | (Ok None, w1) => (Abort 404, w1)
  | (Abort c, w1) => (Abort c, w1)
  | (Raise e, w1) => (Raise e, w1)
  | (Diverged, w1) => (Diverged, w1)
  end.
Proof.
  intros Ho. unfold enter_prize_draw. cbv zeta.
  generalize (get_github_profile now (lower github_id)). intros g.
  run. rewrite Ho. simpl.
  destruct (g w) as [[[p|]| | |] w1]; simpl; try done.
  pose proof (sadd_one (lower github_id) (entrants (store w1))) as Hs.
  unfold Redis.sadd in Hs. simpl in Hs. injection Hs as -> ->.
  by destruct (decide (lower github_id ∈ entrants (store w1))).
Qed.

(** How [enter_prize_draw] ends, by cases. *)
Lemma enter_prize_draw_cases now github_id w :
  let r := (enter_prize_draw now github_id w).1 in
  let w' := (enter_prize_draw now github_id w).2 in
  (entrants (store w') = entrants (store w) /\ forall p, r <> Ok p)
  \/ (exists p, r = Ok p
      /\ Redis.exists_ now (is_open (store w)) = 1
      /\ (lower github_id ∉ entrants (store w))
      /\ entrants (store w') = entrants (store w) ∪ {[lower github_id]}).
Proof.
  destruct (exists_0_or_1 now (is_open (store w))) as [H0|H1].
  { rewrite enter_prize_draw_closed by done. by left. }
  rewrite enter_prize_draw_lookup by done.
  pose proof (get_github_profile_same_draw now (lower github_id) w)
    as (_ & He & _).
  destruct (get_github_profile now (lower github_id) w)
    as [[[p|]| | |] w1]; simpl in *; try (by left).
  rewrite He.
  destruct (decide (lower github_id ∈ entrants (store w))) as [Hin|Hin].
  - left. split; [set_solver | done].
  - right. exists p. by split_and!.
Qed.

(** X9: [enter_prize_draw] changes the entrant set only when it
    succeeds.  When it returns a profile, the flag was present, the
    lowercased identity was not an entrant and is the one member
    added; on every other outcome (403, 404, 400 or an exception) the
    entrant set is the one it started from. *)
Theorem enter_changes_entrants_only_on_success now github_id w :
  let r := (enter_prize_draw now github_id w).1 in
  let w' := (enter_prize_draw now github_id w).2 in
  (forall p, r = Ok p ->
     Redis.exists_ now (is_open (store w)) = 1
     /\ (lower github_id ∉ entrants (store w))
     /\ entrants (store w') = entrants (store w) ∪ {[lower github_id]})
  /\ ((forall p, r <> Ok p) -> entrants (store w') = entrants (store w)).
Proof.
  intros r w'. subst r w'.
  destruct (enter_prize_draw_cases now github_id w)
    as [[He Hr]|(p & Hr & Ho & Hn & He)].
  - split; [|done]. intros p Hp. by destruct (Hr p).
  - split; [done|]. intros Hno. by destruct (Hno p).
Qed.

(** X10: with the flag present, an identity whose profile is neither
    cached nor known to the provider (any status but 200) is answered
    404; the store is unchanged, nothing is cached, and the provider
    has been asked once for the lowercased identity. *)
Theorem enter_unknown_identity now github_id w c p :
  Redis.exists_ now (is_open (store w)) = 1 ->
  Redis.get now (profiles (store w) !! lower github_id) = None ->
  provider now (lower github_id) = Response c p -> c <> 200 ->
  enter_prize_draw now github_id w
  = (Abort 404, mkWorld (store w) (fetched w ++ [lower github_id])).
Proof.
  intros Ho Hmiss Hp Hc. rewrite enter_prize_draw_lookup by done.
  by rewrite (get_github_profile_failure _ _ _ _ _ Hmiss Hp Hc).
Qed.

(** X11: nobody enters a closed draw.  After [end_draw], after
    [draw_prizes] (however it ends), and from the instant a flag set
    with a positive duration (one whose expiry instant the server's
    clock holds) expires, [enter_prize_draw] answers 403 and changes
    nothing. *)
Theorem closed_draw_rejects_entries now github_id w :
  enter_prize_draw now github_id (end_draw true w).2
    = (Abort 403, (end_draw true w).2)
  /\ (forall rnd,
        enter_prize_draw now github_id (draw_prizes true rnd w).2
        = (Abort 403, (draw_prizes true rnd w).2))
  /\ (forall pl duration t0,
        pl <> [] -> 0 < duration -> Redis.expiry_fits t0 duration ->
        t0 + duration <= now ->
        enter_prize_draw now github_id
          (start_new_draw true pl duration t0 w).2
        = (Abort 403, (start_new_draw true pl duration t0 w).2)).
Proof.
  split_and!.
  - by apply enter_prize_draw_closed.
  - intros rnd. apply enter_prize_draw_closed.
    destruct (draw_prizes_spec rnd w) as (m & P' & E' & _ & _ & ->).
    by destruct (decide (m = ∅)).
  - intros pl d t0 Hpl Hd Hfit Hexp. apply enter_prize_draw_closed.
    rewrite start_new_draw_store by (done || by right). simpl.
    assert ((d =? 0) = false) as -> by lia.
    unfold Redis.exists_, Redis.get, Redis.live. simpl.
    by assert ((now <? t0 + d) = false) as -> by lia.
Qed.

(** X12: right after a successful [enter_prize_draw], the state read
    at the same instant is [DRAW_OPEN_WITH_ENTRANTS]. *)
Theorem entered_draw_state now github_id w p :
  (enter_prize_draw now github_id w).1 = Ok p ->
  get_draw_state now (store (enter_prize_draw now github_id w).2)
  = DRAW_OPEN_WITH_ENTRANTS.
Proof.
  intros Hok.
  destruct (enter_prize_draw_cases now github_id w)
    as [[_ Hr]|(q & _ & Ho & _ & He)]; [by destruct (Hr p)|].
  pose proof (enter_prize_draw_frame now github_id w) as (Hf & _).
  simpl in Hf. unfold get_draw_state. rewrite Hf, Ho, He.
  unfold classify. simpl.
  assert (Redis.scard (entrants (store w) ∪ {[lower github_id]}) <> 0) as Hn.
  { unfold Redis.scard. intros H.
    assert (size (entrants (store w) ∪ {[lower github_id]}) = 0%nat) as H0
      by lia.
    apply size_empty_inv in H0. set_solver. }
  by apply Z.eqb_neq in Hn as ->.
Qed.

(** *** The winner view, continued *)

Lemma get_winners_hit now w l :
  Redis.get now (winners_json (store w)) = Some l ->
  get_winners now w = (Ok (Some l), w).
Proof. intros H. unfold get_winners. run. by rewrite H. Qed.

Lemma get_winners_none now w :
  Redis.get now (winners_json (store w)) = None ->
  winners (store w) = ∅ ->
  get_winners now w = (Ok None, w).
Proof.
  intros Hj Hw. unfold get_winners. run. rewrite Hj. unfold Redis.hgetall.
  by rewrite decide_True.
Qed.

Lemma get_never_expiring {A} now t (k : option (entry A)) v :
  (forall e, k = Some e -> expire_at e = None) ->
  Redis.get now k = Some v -> Redis.get t k = Some v.
Proof.
  intros Hne. destruct k as [e|]; [|done].
  unfold Redis.get, Redis.live. by rewrite (Hne e eq_refl).
Qed.

(** X13: a cached winner view is returned as it is, with no request to
    the provider and no write.  Once [get_winners] has returned a list,
    every later call, at any instant, returns that same list from the
    cache and changes nothing, provided the cached view carries no
    expiry, which is so in every reachable world. *)
Theorem get_winners_is_computed_once now w l w' :
  get_winners now w = (Ok (Some l), w') ->
  (forall e, winners_json (store w) = Some e -> expire_at e = None) ->
  (forall cached, Redis.get now (winners_json (store w)) = Some cached ->
     cached = l /\ w' = w)
  /\ forall t, get_winners t w' = (Ok (Some l), w').
Proof.
  intros Hget Hne.
  destruct (Redis.get now (winners_json (store w))) as [c|] eqn:Hj.
  - rewrite (get_winners_hit _ _ _ Hj) in Hget. simplify_eq.
    split; [by intros ? [= <-]|].
    intros t. apply get_winners_hit. by eapply get_never_expiring.
  - split; [done|]. intros t.
    destruct (decide (winners (store w) = ∅)) as [Hw|Hw].
    { by rewrite get_winners_none in Hget. }
    destruct (get_winners_computes _ _ _ _ Hj Hw Hget) as (l0 & [= <-] & _ & Hc).
    apply get_winners_hit. by rewrite Hc.
Qed.

(** *** Joining winners and profiles *)

(** X14: when [get_winners] computes the view, and the reply lists
    every field of the [winners] hash once, the list has one record per
    field, in the order of the reply.  The record of a prize carries
    that prize, and the avatar and the display name of its winner's
    profile as then cached: the profile's [name], or its [login] when
    the name is null or empty. *)
Theorem get_winners_joins_profiles now w l w' :
  field_order (winners (store w)) ≡ₚ map_to_list (winners (store w)) ->
  Redis.get now (winners_json (store w)) = None ->
  get_winners now w = (Ok (Some l), w') ->
  Forall2 (fun item rec =>
             exists p,
               Redis.get now (profiles (store w') !! item.2) = Some p
               /\ winner_prize rec = item.1
               /\ winner_image rec = avatar_url p
               /\ winner_name rec
                  = if truthy (name p) then default EmptyString (name p)
                    else login p)
    (field_order (winners (store w))) l
  /\ winner_prize <$> l ≡ₚ (map_to_list (winners (store w))).*1
  /\ (forall rec, rec ∈ l ->
        exists id p,
          winners (store w) !! winner_prize rec = Some id
          /\ Redis.get now (profiles (store w') !! id) = Some p
          /\ winner_name rec
             = (if truthy (name p) then default EmptyString (name p)
                else login p)
          /\ winner_image rec = avatar_url p)
  /\ length l = size (winners (store w)).
Proof.
  intros Hperm Hj Hget.
  destruct (decide (winners (store w) = ∅)) as [Hw|Hw].
  { by rewrite get_winners_none in Hget. }
  destruct (get_winners_computes _ _ _ _ Hj Hw Hget)
    as (l0 & [= <-] & Hall & _).
  destruct (joined_records _ _ _ _ _ Hperm Hall) as (Hpz & Hrec & Hlen).
  split_and!; try done.
  eapply Forall2_impl; [exact Hall|].
  intros [prize id] rec (p & Hp & ->). exists p. by split_and!.
Qed.

(** *** The home page *)

Lemma won_has_winners now s :
  get_draw_state now s = DRAW_WON ->
  winners s <> ∅ /\ Redis.exists_ now (is_open s) = 0.
Proof.
  unfold get_draw_state, classify, Redis.exists_hash, Redis.exists_set.
  destruct (exists_0_or_1 now (is_open s)) as [-> | ->];
    repeat case_decide; simpl;
    try destruct (Redis.scard (entrants s) =? 0); done.
Qed.

(** X15: [homepage] only reads, except in the state [DRAW_WON].  In
    every other state it returns the state, the prize set in the two
    open states and nothing otherwise, no winners, and leaves the world
    as it is.  In the state [DRAW_WON] the winners hash is not empty,
    and when the page is produced it carries a list of winners and no
    prizes. *)
Theorem homepage_reads now w :
  let state := get_draw_state now (store w) in
  (state <> DRAW_WON ->
   homepage now w
   = (Ok (state,
          match state with
          | DRAW_OPEN_NO_ENTRANTS | DRAW_OPEN_WITH_ENTRANTS =>
              Some (prizes (store w))
          | _ => None
          end,
          None), w))
  /\ (state = DRAW_WON ->
      winners (store w) <> ∅
      /\ forall r w', homepage now w = (Ok r, w') ->
           exists l, r = (DRAW_WON, None, Some l)
                     /\ (get_winners now w).1 = Ok (Some l)).
Proof.
  intros state. subst state. unfold homepage, get_prizes, Redis.smembers.
  split.
  - intros Hs. run. by destruct (get_draw_state now (store w)).
  - intros Hs. destruct (won_has_winners _ _ Hs) as [Hw _].
    split; [done|]. intros r w'. run. rewrite Hs.
    destruct (get_winners now w) as [[[l|]| | |] w1] eqn:Hget;
      simpl; try done.
    + intros [= <- <-]. by exists l.
    + exfalso. destruct (Redis.get now (winners_json (store w))) eqn:Hj.
      * by rewrite (get_winners_hit _ _ _ Hj) in Hget.
      * by destruct (get_winners_computes _ _ _ _ Hj Hw Hget) as (? & ? & _).
Qed.

(** *** What every reachable world satisfies *)

Lemma get_winners_json now w :
  winners_json (store (get_winners now w).2) = winners_json (store w)
  \/ exists l, winners_json (store (get_winners now w).2)
               = Some (Entry l None).
Proof.
  unfold get_winners. run.
  destruct (Redis.get now (winners_json (store w))); simpl; [by left|].
  unfold Redis.hgetall. case_decide; simpl; [by left|].
  pose proof (winner_loop_same_draw now (field_order (winners (store w))) [] w)
    as (_&_&_&_&Hj).
  destruct (winner_loop now (field_order (winners (store w))) [] w)
    as [[l| | |] w1]; simpl in *; try (by left).
  right. by exists l.
Qed.

Lemma step_world_inv w w' :
  step w w' -> world_inv (store w) -> world_inv (store w').
Proof.
  intros Hstep (Hd & Hinj & Hj).
  pose proof (step_draw_inv _ _ Hstep Hd) as Hd'.
  unfold world_inv. split; [exact Hd'|]. clear Hd'.
  destruct Hstep as [auth pl duration now w | now github_id w | auth w
                    | auth rnd w | now w].
  - unfold start_new_draw. run.
    destruct auth; simpl; [|done].
    destruct pl as [|x l]; simpl; [done|].
    destruct (Redis.set _ _ _); simpl;
      (split; [by intros ??? ?%lookup_empty_Some | done]).
  - pose proof (enter_prize_draw_frame now github_id w) as (_ & _ & Hw & Hjs).
    simpl in *. by rewrite Hw, Hjs.
  - unfold end_draw. run. by destruct auth.
  - destruct auth; [|done].
    destruct (draw_prizes_spec rnd w) as (m & P' & E' & Hpost & _ & ->).
    destruct Hpost as (_ & Hv & Hi & _ & _ & HE' & _ & HE).
    destruct (decide (m = ∅)) as [|Hm]; simpl; [done|].
    assert (winners (store w) = ∅) as Hold.
    { destruct Hd as [|[_ Hempty]]; [done|].
      by destruct (HE Hempty) as (-> & _). }
    by rewrite Hold, (right_id_L ∅ (∪)).
  - pose proof (get_winners_frame now w) as (_ & He & _ & Hw).
    simpl in *. rewrite Hw. split; [done|].
    destruct (get_winners_json now w) as [->|[l ->]]; [done|].
    by intros e [= <-].
Qed.

Lemma reachable_world_inv w : reachable w -> world_inv (store w).
Proof.
  induction 1 as [|w w' _ IH Hstep]; [|by eapply step_world_inv].
  unfold world_inv, draw_inv. simpl.
  split_and!; [by left | by intros ??? ?%lookup_empty_Some | done].
Qed.

Lemma step_lowercase_inv w w' :
  step w w' -> lowercase_inv (store w) -> lowercase_inv (store w').
Proof.
  intros Hstep (Hle & Hlw). unfold lowercase_inv.
  destruct Hstep as [auth pl duration now w | now github_id w | auth w
                    | auth rnd w | now w].
  - unfold start_new_draw. run.
    destruct auth; simpl; [|done].
    destruct pl as [|x l]; simpl; [done|].
    destruct (Redis.set _ _ _); simpl;
      (split; [set_solver | by intros ?? ?%lookup_empty_Some]).
  - pose proof (enter_prize_draw_frame now github_id w) as (_ & _ & Hw & _).
    simpl in *. rewrite Hw. split; [|done].
    destruct (enter_prize_draw_cases now github_id w)
      as [[He _]|(p & _ & _ & _ & He)]; simpl in He; rewrite He; [done|].
    intros x [Hx| ->%elem_of_singleton]%elem_of_union; [by apply Hle|].
    by exists github_id.
  - unfold end_draw. run. by destruct auth.
  - destruct auth; [|done].
    destruct (draw_prizes_spec rnd w) as (m & P' & E' & Hpost & _ & ->).
    destruct Hpost as (_ & Hv & _ & _ & _ & HE' & _ & _).
    destruct (decide (m = ∅)) as [|Hm]; simpl.
    + split; [|done]. intros x Hx. apply Hle. set_solver.
    + split; [set_solver|].
      intros k v [Hk|[_ Hk]]%lookup_union_Some_raw; [|by eapply Hlw].
      destruct (Hv _ _ Hk) as [?%lookup_empty_Some|Hin]; [done|].
      by apply Hle.
  - pose proof (get_winners_frame now w) as (_ & He & _ & Hw).
    simpl in *. by rewrite He, Hw.
Qed.

Lemma reachable_lowercase_inv w : reachable w -> lowercase_inv (store w).
Proof.
  induction 1 as [|w w' _ IH Hstep]; [|by eapply step_lowercase_inv].
  unfold lowercase_inv. simpl.
  split; [set_solver | by intros ?? ?%lookup_empty_Some].
Qed.

(** X16: in every reachable world the winners hash is injective (no
    identity holds two prizes), and when it is not empty the flag is
    absent and the entrant set is empty: winners exist only for a
    closed draw whose entrants have been cleaned up. *)
Theorem reachable_winners_shape w :
  reachable w ->
  injective_map (winners (store w))
  /\ (winners (store w) <> ∅ ->
      is_open (store w) = None /\ entrants (store w) = ∅).
Proof.
  intros (Hd & Hinj & _)%reachable_world_inv. split; [done|].
  intros Hne. by destruct Hd.
Qed.

(** X17: in every reachable world every entrant and every stored
    winner is the lowercasing ([str.lower]) of an identity that was
    submitted; so, lowercasing being idempotent, each of them is left
    unchanged by lowercasing. *)
Theorem reachable_identities_lowercase w :
  reachable w ->
  (forall x, x ∈ entrants (store w) -> exists g, x = lower g)
  /\ (forall k v, winners (store w) !! k = Some v -> exists g, v = lower g)
  /\ ((forall s, lower (lower s) = lower s) ->
      (forall x, x ∈ entrants (store w) -> lower x = x)
      /\ (forall k v, winners (store w) !! k = Some v -> lower v = v)).
Proof.
  intros [Hle Hlw]%reachable_lowercase_inv. split_and!; try done.
  intros Hidem. split.
  - intros x [g ->]%Hle. apply Hidem.
  - intros k v [g ->]%Hlw. apply Hidem.
Qed.

(** X18: in a reachable world a list returned by [get_winners] is what
    every later call returns, at any instant, with the world
    unchanged: the view is computed once. *)
Theorem reachable_winner_view_is_stable now w l w' :
  reachable w ->
  get_winners now w = (Ok (Some l), w') ->
  forall t, get_winners t w' = (Ok (Some l), w').
Proof.
  intros (_ & _ & Hj)%reachable_world_inv Hget.
  destruct (Redis.get now (winners_json (store w))) as [c|] eqn:Hc.
  - rewrite (get_winners_hit _ _ _ Hc) in Hget. simplify_eq.
    intros t. apply get_winners_hit. by eapply get_never_expiring.
  - intros t.
    destruct (decide (winners (store w) = ∅)) as [Hw|Hw].
    { by rewrite get_winners_none in Hget. }
    destruct (get_winners_computes _ _ _ _ Hc Hw Hget)
      as (l0 & [= <-] & _ & Hcached).
    apply get_winners_hit. by rewrite Hcached.
Qed.

End App.

(** ** The state classifier *)


Lemma exists_flag now s :
  Redis.exists_ now (is_open s) = Z.b2z (flag_present now s).
Proof.
  unfold Redis.exists_, flag_present.
  by destruct (Redis.get now (is_open s)).
Qed.

Lemma exists_winners s :
  Redis.exists_hash (winners s) = Z.b2z (winners_present s).
Proof.
  unfold Redis.exists_hash, winners_present.
  case_decide as H.
  - rewrite bool_decide_eq_false_2; [done | by intros []].
  - by rewrite bool_decide_eq_true_2.
Qed.

Lemma exists_prizes s :
  Redis.exists_set (prizes s) = Z.b2z (prizes_present s).
Proof.
  unfold Redis.exists_set, prizes_present.
  case_decide as H.
  - rewrite bool_decide_eq_false_2; [done | by intros []].
  - by rewrite bool_decide_eq_true_2.
Qed.

Lemma classify_table (f w p : bool) (n : nat) :
  classify (Z.b2z f) (Z.b2z w) (Z.b2z p) (Z.of_nat n) = resolve_table f w p n.
Proof. by destruct f, w, p, n. Qed.

(** C2: for every store content, that is for every combination of the
    four reads (flag, winners and prizes present or not, entrant count),
    [get_draw_state] returns the state that the precedence table gives:
    [NO_DRAW] when all three keys are absent, the two open states when
    the flag is present, the two closed states when flag and winners
    are absent, [DRAW_WON] otherwise; and every combination of replies
    is classified that way. *)
Theorem get_draw_state_table :
  (forall now s,
     get_draw_state now s =
     resolve_table (flag_present now s) (winners_present s)
       (prizes_present s) (size (entrants s)))
  /\ (forall f w p n,
        classify (Z.b2z f) (Z.b2z w) (Z.b2z p) (Z.of_nat n)
        = resolve_table f w p n)
  /\ (forall p n, resolve_table false false false n = NO_DRAW
        /\ resolve_table true false p 0 = DRAW_OPEN_NO_ENTRANTS
        /\ resolve_table true true p 0 = DRAW_OPEN_NO_ENTRANTS
        /\ resolve_table true false p (S n) = DRAW_OPEN_WITH_ENTRANTS
        /\ resolve_table true true p (S n) = DRAW_OPEN_WITH_ENTRANTS
        /\ resolve_table false false true 0 = DRAW_CLOSED_NO_ENTRANTS
        /\ resolve_table false false true (S n) = DRAW_CLOSED_WITH_ENTRANTS
        /\ resolve_table false true p n = DRAW_WON).
Proof.
  split; [| split].
  - intros now s. unfold get_draw_state.
    rewrite exists_flag, exists_winners, exists_prizes.
    apply classify_table.
  - apply classify_table.
  - intros p n. by destruct p, n.
Qed.

(** ** The winner view without a profile *)

(** C8: [get_winners] is not total.  With one stored winner, no cached
    view, no cached profile and a provider that answers 503, the lookup
    yields [None], the handler subscripts it and ends in [TypeError];
    the registration handler, given the same lookup outcome, answers
    404. *)
Theorem get_winners_raises_without_profile :
  get_winners provider_down key_order 0 won_world
  = (Raise TypeError, mkWorld (store won_world) ["x"])
  /\ get_github_profile provider_down 0 "x" won_world
     = (Ok None, mkWorld (store won_world) ["x"])
  /\ enter_prize_draw provider_down ascii_lower 0 "x" open_world
     = (Abort 404, mkWorld (store open_world) ["x"]).
Proof. split_and!; vm_compute; reflexivity. Qed.

(** ** Concrete runs *)

Lemma draw_prizes_is_matching_witness :
  exists m : gmap string string,
    (draw_prizes true (fun n => n) two_three_world).1 = Ok "OK"%string
    /\ winners (store (draw_prizes true (fun n => n) two_three_world).2) = m
    /\ size m = 2%nat
    /\ dom m = {["A"; "B"]}
    /\ injective_map m.
Proof.
  destruct (draw_prizes_is_matching provider_up ascii_lower key_order (fun n => n) two_three_world)
    as (m & _ & _ & Hgen & Hspec).
  destruct (Hspec eq_refl eq_refl) as (Hok & Hsize & Hdom & _ & Hinj).
  assert (prizes (store two_three_world) <> ∅) as HP.
  { intros H. apply (f_equal size) in H. vm_compute in H. discriminate. }
  assert (entrants (store two_three_world) <> ∅) as HE.
  { intros H. apply (f_equal size) in H. vm_compute in H. discriminate. }
  destruct (Hgen HP HE) as (_ & _ & Hstored & _).
  exists m. split_and!; [exact Hok | exact (Hstored eq_refl) | exact Hsize
                        | exact Hdom | exact Hinj].
Defined.

Lemma flag_and_winners_never_both_witness :
  let w := (start_new_draw true ["A"; "B"]%string 0 0 empty_world).2 in
  reachable provider_up ascii_lower key_order w
  /\ forall now,
       ~ (Redis.exists_ now (is_open (store w)) = 1
          /\ Redis.exists_hash (winners (store w)) = 1).
Proof.
  intros w.
  assert (reachable provider_up ascii_lower key_order w) as Hw.
  { eapply reachable_step; [apply reachable_empty|].
    apply step_start_new_draw. }
  split; [exact Hw|].
  exact (proj2 (proj2 (flag_and_winners_never_both provider_up ascii_lower key_order) w Hw)).
Defined.

Lemma draw_prizes_raises_on_empty_side_witness :
  prizes (store no_prize_world) = ∅
  /\ (draw_prizes true (fun _ => 0%nat) no_prize_world).1 = Raise DataError
  /\ entrants (store (draw_prizes true (fun _ => 0%nat) no_prize_world).2)
     = {["x"; "y"]}.
Proof.
  split; [reflexivity|].
  destruct (draw_prizes_raises_on_empty_side (fun _ => 0%nat) no_prize_world
              (or_introl eq_refl)) as (Hr & _ & He & _).
  split; [exact Hr | exact (He eq_refl)].
Defined.

Lemma register_once_witness :
  exists p w1,
    enter_prize_draw provider_up ascii_lower 0 "Alice" open_world = (Ok p, w1)
    /\ entrants (store w1) = {["alice"]}
    /\ (enter_all provider_up ascii_lower
          [(1, "alice"); (2, "ALICE")]%string w1).1
       = [Abort 400; Abort 400].
Proof.
  destruct (register_once provider_up ascii_lower 0 "Alice"
              [(1, "alice"); (2, "ALICE")]%string open_world)
    as (p & w1 & _ & _ & _ & Henter & _ & Hents & Hall & Hlen & _).
  - intros t. eexists. reflexivity.
  - reflexivity.
  - apply not_elem_of_empty.
  - repeat constructor.
  - exists p, w1. split_and!; [exact Henter | |].
    + rewrite Hents. vm_compute. reflexivity.
    + destruct (enter_all provider_up ascii_lower _ w1).1
        as [|r1 [|r2 [|r3 rs]]]; try discriminate Hlen.
      apply Forall_cons in Hall as [-> Hall].
      apply Forall_cons in Hall as [-> _]. reflexivity.
Defined.

Lemma enter_closed_is_rejected_first_witness :
  Redis.exists_ 0 (is_open (store empty_world)) = 0
  /\ enter_prize_draw provider_up ascii_lower 0 "alice" empty_world
     = (Abort 403, empty_world).
Proof.
  split; [reflexivity|].
  exact (proj1 (enter_closed_is_rejected_first provider_up ascii_lower 0 "alice"
                  empty_world eq_refl)).
Defined.

Lemma profile_cache_miss_witness :
  (let w1 := (get_github_profile provider_up 0 "alice" empty_world).2 in
   profiles (store w1) !! "alice"
     = Some (Entry (mkProfile "alice" None EmptyString) (Some 3600))
   /\ get_github_profile provider_up 3599 "alice" w1
      = (Ok (Some (mkProfile "alice" None EmptyString)), w1))
  /\ (let w1 := (get_github_profile provider_down 0 "alice" empty_world).2 in
      (get_github_profile provider_down 0 "alice" empty_world).1 = Ok None
      /\ store w1 = empty_store
      /\ fetched (get_github_profile provider_down 10 "alice" w1).2
         = ["alice"; "alice"]%string).
Proof.
  split.
  - destruct (proj1 (profile_cache_miss provider_up 0 "alice" empty_world
                       eq_refl) (mkProfile "alice" None EmptyString) eq_refl)
      as (_ & Hc & _ & Hhit).
    split; [exact Hc|]. apply Hhit. reflexivity.
  - destruct (proj2 (profile_cache_miss provider_down 0 "alice" empty_world
                       eq_refl) 503 (mkProfile EmptyString None EmptyString) eq_refl)
      as (Hr & Hs & _ & Hretry).
    { discriminate. }
    split_and!; [exact Hr | exact Hs |]. apply Hretry. discriminate.
Defined.

Lemma start_new_draw_replaces_draw_witness :
  (start_new_draw true ["A"; "B"]%string 60 100 won_world).1 = Ok "OK"%string
  /\ opened_with ["A"; "B"]%string 60 100
       (store (start_new_draw true ["A"; "B"]%string 60 100 won_world).2).
Proof.
  destruct (start_new_draw_replaces_draw ["A"; "B"]%string 60 100 won_world)
    as (Hr & Ho & _).
  - discriminate.
  - right. unfold Redis.expiry_fits, Redis.LLONG_MAX. lia.
  - split; [exact Hr | exact Ho].
Defined.

(** C9, as first stated, fails for an empty prize list: the block of
    commands is refused as a whole, so the previous winners survive and
    no flag is written. *)
Lemma start_new_draw_empty_list_keeps_previous_draw :
  let w' := (start_new_draw true [] 0 0 won_world).2 in
  ~ opened_with [] 0 0 (store w')
  /\ winners (store w') = {["A" := "x"]}
  /\ is_open (store w') = None.
Proof.
  split_and!; [|reflexivity|reflexivity].
  intros (H & _). apply (f_equal size) in H. vm_compute in H. discriminate.
Qed.

Lemma get_winners_empty_is_not_cached_witness :
  get_winners provider_up key_order 0 two_three_world
  = (Ok None, two_three_world)
  /\ exists l,
       winners_json
         (store (get_winners provider_up key_order 5
                   (draw_prizes true (fun n => n) two_three_world).2).2)
       = Some (Entry l None)
       /\ l <> [].
Proof.
  destruct (get_winners_empty_is_not_cached provider_up key_order 0
              two_three_world eq_refl eq_refl) as [Hnone Hnext].
  split; [exact Hnone|].
  let res := eval vm_compute in
      (get_winners provider_up key_order 5
         (draw_prizes true (fun n => n) two_three_world).2) in
  match res with
  | (Ok ?r, ?w3) =>
      destruct (Hnext (fun n => n) 5 r w3) as (l & _ & _ & _ & Hne & Hc);
        [unfold key_order; reflexivity | vm_compute; reflexivity
        | vm_compute; reflexivity | vm_compute; reflexivity |]
  end.
  exists l. split; [|exact Hne].
  rewrite <- Hc. vm_compute. reflexivity.
Defined.

(** ** Key names *)

(** X1: a profile key is none of the keys of the draw, whatever the
    identity, and two identities never share a profile key; the five
    keys of the draw are pairwise different. *)
Theorem profile_keys_are_separate id1 id2 :
  (get_key_name ["profiles"%string; id1] ∉ draw_keys)
  /\ (get_key_name ["profiles"%string; id1]
      = get_key_name ["profiles"%string; id2] -> id1 = id2)
  /\ NoDup draw_keys.
Proof.
  split_and!.
  - unfold draw_keys. cbn. intros H.
    repeat (apply elem_of_cons in H as [H|H]; [discriminate H|]).
    by apply elem_of_nil in H.
  - cbn. intros H. by simplify_eq.
  - unfold draw_keys. cbn.
    repeat (apply NoDup_cons; split;
            [intros H;
             repeat (apply elem_of_cons in H as [H|H]; [discriminate H|]);
             by apply elem_of_nil in H|]).
    apply NoDup_nil_2.
Qed.

(** ** The admin session *)

(** X2: a request to [admin_page] other than GET with a password field
    logs in exactly when the password is non-empty and equal to the
    configured one.  An empty password, a wrong one, or no configured
    password give the login page with "Bad password." and leave the
    session as it was. *)
Theorem admin_page_login method p configured now s session :
  method <> "GET"%string ->
  let res := admin_page method (Some p) configured now s session in
  (p <> EmptyString -> configured = Some p ->
   res = (Ok (admin (get_draw_state now s)),
          <["authenticated"%string := true]> session)
   /\ session_authenticated res.2 = true)
  /\ (p = EmptyString \/ configured <> Some p ->
      res = (Ok (adminlogin (Some "Bad password."%string)), session)).
Proof.
  intros Hm res. subst res. unfold admin_page.
  apply String.eqb_neq in Hm. rewrite Hm. split.
  - intros Hp ->. apply String.eqb_neq in Hp. rewrite Hp. simpl.
    rewrite bool_decide_eq_true_2 by done. simpl. split; [done|].
    unfold session_authenticated. by rewrite lookup_insert_eq.
  - intros [->|Hc]; [done|].
    rewrite (bool_decide_eq_false_2 (Some p = configured)) by done.
    by rewrite andb_false_r.
Qed.

Lemma admin_page_login_witness :
  (admin_page "POST" (Some "s3cret"%string) (Some "s3cret"%string) 0
     empty_store ∅).1 = Ok (admin NO_DRAW)
  /\ (admin_page "POST" (Some EmptyString) (Some EmptyString) 0
        empty_store ∅) = (Ok (adminlogin (Some "Bad password."%string)), ∅).
Proof.
  split.
  - destruct (admin_page_login "POST" "s3cret" (Some "s3cret"%string) 0
                empty_store ∅) as [Hyes _]; [discriminate|].
    destruct Hyes as [-> _]; [discriminate | reflexivity | reflexivity].
  - destruct (admin_page_login "POST" EmptyString (Some EmptyString) 0
                empty_store ∅) as [_ Hno]; [discriminate|].
    apply Hno. left. reflexivity.
Defined.

(** X3: GET on [admin_page] empties the session, whatever it held; with
    that session [start_new_draw], [end_draw] and [draw_prizes] answer
    403 and leave the world as it is. *)
Theorem admin_page_get_logs_out password configured now s session :
  let session' := (admin_page "GET" password configured now s session).2 in
  session' = ∅
  /\ session_authenticated session' = false
  /\ forall pl duration t rnd w,
       start_new_draw (session_authenticated session') pl duration t w
         = (Abort 403, w)
       /\ end_draw (session_authenticated session') w = (Abort 403, w)
       /\ draw_prizes (session_authenticated session') rnd w = (Abort 403, w).
Proof. by split_and!. Qed.

(** ** The redirect to https *)

(** X4: outside development, a request forwarded as http whose URL
    begins with [http://] is redirected with code 301 to the same URL
    with [https://] in front: only the leading scheme is rewritten.
    With any other forwarded protocol, or in development, there is no
    redirect. *)
Theorem before_request_upgrades_scheme env rest :
  env <> "development"%string ->
  before_request (Some "http"%string) env (String.append "http://" rest)
    = Some (String.append "https://" rest, 301)
  /\ (forall h url, h <> Some "http"%string -> before_request h env url = None)
  /\ (forall h url, before_request h "development" url = None).
Proof.
  intros He. apply String.eqb_neq in He. unfold before_request. split_and!.
  - rewrite He, bool_decide_eq_true_2 by done. by destruct rest.
  - intros h url Hh. by rewrite bool_decide_eq_false_2.
  - intros h url. by rewrite andb_false_r.
Qed.

Lemma before_request_upgrades_scheme_witness :
  before_request (Some "http"%string) "production"
    "http://draw.example/enter/x?next=http://a"
  = Some ("https://draw.example/enter/x?next=http://a"%string, 301).
Proof.
  apply (before_request_upgrades_scheme "production"
           "draw.example/enter/x?next=http://a").
  discriminate.
Defined.

(** ** Opening a draw: refused inputs *)

(** X5: with an empty prize list [start_new_draw] raises and the world
    is untouched.  With a negative duration it raises after the draw
    data has been replaced: entrants, winners and the cached view are
    gone, the prizes are the given ones, and the flag is the one that
    was there before. *)
Theorem start_new_draw_refused_inputs duration now w :
  start_new_draw true [] duration now w = (Raise ResponseError, w)
  /\ forall pl, pl <> [] -> duration < 0 ->
       let w' := (start_new_draw true pl duration now w).2 in
       (start_new_draw true pl duration now w).1 = Raise ResponseError
       /\ is_open (store w') = is_open (store w)
       /\ prizes (store w') = list_to_set pl
       /\ entrants (store w') = ∅
       /\ winners (store w') = ∅
       /\ winners_json (store w') = None.
Proof.
  split; [by destruct (duration =? 0)|].
  intros pl Hpl Hd. unfold start_new_draw.
  unfold bind, ret, raise, write_store.
  destruct pl as [|x l]; [done|].
  destruct duration as [|d|d]; [lia | lia |]. simpl.
  split_and!; try done. set_solver.
Qed.

(** X20: with a non-empty prize list and a duration above [EX_MAX],
    the largest number of seconds the server takes, [start_new_draw]
    raises after the draw data has been replaced, and the flag is the
    one that was there before: no new flag is written. *)
Theorem start_new_draw_refuses_far_expiry pl duration now w :
  pl <> [] -> Redis.EX_MAX < duration ->
  let w' := (start_new_draw true pl duration now w).2 in
  (start_new_draw true pl duration now w).1 = Raise ResponseError
  /\ is_open (store w') = is_open (store w)
  /\ prizes (store w') = list_to_set pl
  /\ entrants (store w') = ∅
  /\ winners (store w') = ∅
  /\ winners_json (store w') = None.
Proof.
  intros Hpl Hd. unfold start_new_draw. cbv zeta.
  assert (Redis.set "true"%string
            (if duration =? 0 then None else Some duration) now = None)
    as Hset.
  { unfold Redis.EX_MAX in Hd. unfold Redis.set, Redis.EX_MAX.
    assert ((duration =? 0) = false) as -> by lia.
    assert ((duration <=? 9223372036854775) = false) as -> by lia.
    by rewrite andb_false_r. }
  rewrite Hset. destruct pl as [|x l]; [done|].
  unfold bind, ret, raise, write_store. simpl.
  split_and!; try done. set_solver.
Qed.

Lemma start_new_draw_refuses_far_expiry_witness :
  let w' := (start_new_draw true ["A"]%string 9223372036854775807 0
               two_three_world).2 in
  (start_new_draw true ["A"]%string 9223372036854775807 0
     two_three_world).1 = Raise ResponseError
  /\ is_open (store w') = Some (Entry "true"%string None).
Proof.
  destruct (start_new_draw_refuses_far_expiry ["A"]%string
              9223372036854775807 0 two_three_world) as (Hr & Hf & _).
  - discriminate.
  - reflexivity.
  - split; [exact Hr | exact Hf].
Defined.

Lemma start_new_draw_refused_inputs_witness :
  let w' := (start_new_draw true ["A"]%string (-5) 0 two_three_world).2 in
  is_open (store w') = Some (Entry "true"%string None)
  /\ entrants (store w') = ∅.
Proof.
  destruct (proj2 (start_new_draw_refused_inputs (-5) 0 two_three_world)
              ["A"]%string) as (_ & Hf & _ & He & _).
  - discriminate.
  - reflexivity.
  - split; [exact Hf | exact He].
Defined.

(** ** The state of a draw over its life *)

(** X6: after [start_new_draw] at instant [now] with a non-empty prize
    list and a duration [d] that is 0, or positive with an expiry
    instant the server's clock holds, the state read at instant [t] is
    [DRAW_OPEN_NO_ENTRANTS] when [d = 0] or [t < now + d], and
    [DRAW_CLOSED_NO_ENTRANTS] from [now + d] on. *)
Theorem opened_draw_state pl duration now w t :
  pl <> [] ->
  duration = 0 \/ (0 < duration /\ Redis.expiry_fits now duration) ->
  get_draw_state t (store (start_new_draw true pl duration now w).2)
  = if (duration =? 0) || (t <? now + duration)
    then DRAW_OPEN_NO_ENTRANTS else DRAW_CLOSED_NO_ENTRANTS.
Proof.
  intros Hpl Hd. rewrite start_new_draw_store by done.
  assert ((list_to_set pl : gset string) <> ∅) as Hne.
  { destruct pl as [|x l]; [done|]. set_solver. }
  unfold get_draw_state. simpl.
  unfold Redis.exists_hash, Redis.exists_set, Redis.scard.
  rewrite decide_True, decide_False, size_empty by done.
  unfold Redis.exists_, Redis.get, Redis.live. simpl.
  destruct (duration =? 0); simpl; [done|].
  by destruct (t <? now + duration).
Qed.

Lemma opened_draw_state_witness :
  get_draw_state 159 (store (start_new_draw true ["A"]%string 60 100
                               empty_world).2) = DRAW_OPEN_NO_ENTRANTS
  /\ get_draw_state 160 (store (start_new_draw true ["A"]%string 60 100
                                  empty_world).2) = DRAW_CLOSED_NO_ENTRANTS.
Proof.
  split.
  - apply (opened_draw_state ["A"]%string 60 100 empty_world 159);
      [discriminate|].
    right. unfold Redis.expiry_fits, Redis.LLONG_MAX. lia.
  - apply (opened_draw_state ["A"]%string 60 100 empty_world 160);
      [discriminate|].
    right. unfold Redis.expiry_fits, Redis.LLONG_MAX. lia.
Defined.

(** ** What an allocation leaves behind *)

Lemma draw_loop_leftovers rnd fuel : forall k acc w m w',
  draw_loop fuel rnd k acc w = (Ok m, w') ->
  size (prizes (store w'))
  = (size (prizes (store w))
     - Nat.min (size (prizes (store w))) (S (size (entrants (store w)))))%nat
  /\ size (entrants (store w'))
     = (size (entrants (store w))
        - Nat.min (size (prizes (store w))) (size (entrants (store w))))%nat
  /\ prizes (store w') ⊆ prizes (store w)
  /\ dom m ⊆ dom acc ∪ (prizes (store w) ∖ prizes (store w')).
Proof.
  induction fuel as [|fuel IH]; intros k acc [s f] m w' H; [done|].
  cbn [draw_loop] in H.
  unfold bind, ret, read_store, write_store in H. cbn [store fetched] in H.
  destruct (decide (prizes s = ∅)) as [HP|HP].
  { rewrite HP, spop_empty in H. simpl in H. simplify_eq.
    cbn [store prizes entrants set_prizes set_entrants].
    rewrite HP, size_empty. split_and!; [done | lia | done | set_solver]. }
  destruct (spop_nonempty (rnd k) _ HP) as (x & Hx & Hpop).
  rewrite Hpop in H. simpl in H.
  assert (size (prizes s) = S (size (prizes s ∖ {[x]}))) as HsP.
  { rewrite (size_difference (prizes s) {[x]}) by set_solver.
    rewrite size_singleton.
    assert (size (prizes s) <> 0%nat)
      by (by intros ?%size_empty_inv%leibniz_equiv).
    lia. }
  destruct (decide (entrants s = ∅)) as [HE|HE].
  { rewrite HE, spop_empty in H. simpl in H. simplify_eq.
    cbn [store prizes entrants set_prizes set_entrants].
    rewrite HE, size_empty. split_and!; [lia | lia | set_solver | set_solver]. }
  destruct (spop_nonempty (rnd (S k)) _ HE) as (y & Hy & Hpop').
  rewrite Hpop' in H. simpl in H.
  assert (size (entrants s) = S (size (entrants s ∖ {[y]}))) as HsE.
  { rewrite (size_difference (entrants s) {[y]}) by set_solver.
    rewrite size_singleton.
    assert (size (entrants s) <> 0%nat)
      by (by intros ?%size_empty_inv%leibniz_equiv).
    lia. }
  apply IH in H as (H1 & H2 & H3 & H4).
  cbn [store prizes entrants set_prizes set_entrants] in *.
  rewrite dom_insert_L in H4.
  split_and!; [lia | lia | set_solver | set_solver].
Qed.

Lemma injective_img_size (m : gmap string string) :
  injective_map m -> size (map_img m : gset string) = size m.
Proof.
  induction m as [|i x m Hi IH] using map_ind; intros Hinj.
  { by rewrite map_img_empty_L, size_empty, map_size_empty. }
  rewrite map_img_insert_notin_L, map_size_insert_None by done.
  rewrite size_union, size_singleton.
  - rewrite IH; [done|]. intros k1 k2 v H1 H2.
    apply (Hinj k1 k2 v); rewrite lookup_insert_ne; try done;
      intros <-; congruence.
  - apply disjoint_singleton_l. intros [k Hk]%elem_of_map_img.
    assert (i = k) as <-; [|congruence].
    apply (Hinj i k x); [by rewrite lookup_insert_eq|].
    rewrite lookup_insert_ne; [done|]. intros <-. congruence.
Qed.

(** X7: [draw_prizes] pops [min |P| (|E| + 1)] prizes from a prize set
    [P] with entrant set [E].  With at most as many prizes as entrants
    the prize set ends empty and, on success, every prize has a
    winner.  With more prizes than entrants, one prize beyond the
    matched ones is popped and lost, [|P| - |E| - 1] prizes stay in the
    set; with at least as many prizes as entrants, on success every
    entrant has won a prize. *)
Theorem allocation_leftovers rnd w :
  let P := prizes (store w) in
  let E := entrants (store w) in
  let w' := (draw_prizes true rnd w).2 in
  size (prizes (store w')) = (size P - Nat.min (size P) (S (size E)))%nat
  /\ prizes (store w') ⊆ P
  /\ ((size P <= size E)%nat -> prizes (store w') = ∅)
  /\ ((size E < size P)%nat ->
      size (prizes (store w')) = (size P - size E - 1)%nat)
  /\ ((draw_prizes true rnd w).1 = Ok "OK"%string ->
      ((size P <= size E)%nat -> P ⊆ dom (winners (store w')))
      /\ ((size E <= size P)%nat ->
          forall e, e ∈ E -> exists k, winners (store w') !! k = Some e)).
Proof.
  intros P E w'. subst P E w'.
  destruct (draw_prizes_spec rnd w) as (m & P' & E' & Hpost & Heq & Hdp).
  apply draw_loop_leftovers in Heq as (HsP & _ & Hsub & Hdom).
  cbn [store prizes entrants set_prizes set_entrants set_is_open] in *.
  apply loop_post_matching in Hpost as (Hd & Hv & Hinj & Hsize).
  assert (prizes (store (draw_prizes true rnd w).2) = P') as HP'.
  { rewrite Hdp. by destruct (decide (m = ∅)). }
  rewrite HP'. split_and!.
  - done.
  - done.
  - intros Hle. assert (size P' = 0%nat) as H0 by lia.
    by apply size_empty_inv, leibniz_equiv in H0.
  - intros Hlt. lia.
  - intros Hok. rewrite Hdp in Hok |- *.
    destruct (decide (m = ∅)) as [|Hm]; simpl in *; [done|].
    split.
    + intros Hle. rewrite dom_union_L.
      assert (dom m = prizes (store w)) as <-; [|set_solver].
      apply set_subseteq_size_eq; [done|]. rewrite size_dom. lia.
    + intros Hle e He.
      assert ((map_img m : gset string) = entrants (store w)) as Himg.
      { apply set_subseteq_size_eq.
        - intros v [k Hk]%elem_of_map_img. by eapply Hv.
        - rewrite injective_img_size by done. lia. }
      rewrite <- Himg in He. apply elem_of_map_img in He as [k Hk].
      exists k. by apply lookup_union_Some_l.
Qed.

Lemma allocation_leftovers_witness :
  prizes (store (draw_prizes true (fun n => n) two_three_world).2) = ∅
  /\ size (prizes (store (draw_prizes true (fun n => n) no_entrant_world).2))
     = 2%nat.
Proof.
  split.
  - destruct (allocation_leftovers (fun n => n) two_three_world)
      as (_ & _ & Hle & _).
    apply Hle. vm_compute. lia.
  - destruct (allocation_leftovers (fun n => n) no_entrant_world)
      as (_ & _ & _ & Hlt & _).
    rewrite Hlt; [reflexivity|]. vm_compute. lia.
Defined.

Lemma profile_keys_are_separate_witness :
  get_key_name ["profiles"; "is_open"]%string ∉ draw_keys.
Proof.
  exact (proj1 (profile_keys_are_separate "is_open" "is_open")).
Defined.

(** X8: once [draw_prizes] has answered OK, the state read at any
    instant is [DRAW_WON], the flag and the entrants are gone and the
    winners hash is not empty; a further [draw_prizes], whatever the
    random pops, ends in [DataError] and leaves the winners hash as it
    is. *)
Theorem allocated_draw_is_won rnd w :
  (draw_prizes true rnd w).1 = Ok "OK"%string ->
  let w' := (draw_prizes true rnd w).2 in
  (forall t, get_draw_state t (store w') = DRAW_WON)
  /\ is_open (store w') = None
  /\ entrants (store w') = ∅
  /\ winners (store w') <> ∅
  /\ forall rnd2,
       (draw_prizes true rnd2 w').1 = Raise DataError
       /\ winners (store (draw_prizes true rnd2 w').2) = winners (store w').
Proof.
  intros Hok w'. subst w'.
  destruct (draw_prizes_spec rnd w) as (m & P' & E' & _ & _ & Hdp).
  rewrite Hdp in Hok |- *.
  destruct (decide (m = ∅)) as [|Hm]; simpl in *; [done|].
  assert (m ∪ winners (store w) <> ∅) as Hne by (by intros ?%map_positive_l).
  split_and!; try done.
  - intros t. unfold get_draw_state. simpl.
    unfold Redis.exists_hash. by rewrite decide_False.
  - intros rnd2.
    destruct (draw_prizes_spec rnd2
                (mkWorld (set_entrants ∅
                            (set_winners (m ∪ winners (store w))
                               (set_prizes P' (set_is_open None (store w)))))
                         (fetched w)))
      as (m2 & P2 & E2 & Hpost2 & _ & ->).
    destruct Hpost2 as (_&_&_&_&_&_&_& HE). simpl in HE.
    destruct (HE eq_refl) as (-> & _ & _).
    by rewrite decide_True.
Qed.

Lemma allocated_draw_is_won_witness :
  get_draw_state 7 (store (draw_prizes true (fun n => n) two_three_world).2)
  = DRAW_WON.
Proof.
  destruct (allocated_draw_is_won (fun n => n) two_three_world) as (H & _).
  - vm_compute. reflexivity.
  - exact (H 7).
Defined.

(** ** Concrete runs of the further properties *)

Lemma enter_changes_entrants_only_on_success_witness :
  entrants (store (enter_prize_draw provider_up ascii_lower 0 "Alice" open_world).2)
  = entrants (store open_world) ∪ {[ascii_lower "Alice"]}
  /\ entrants (store (enter_prize_draw provider_down ascii_lower 0 "Alice" open_world).2)
     = entrants (store open_world).
Proof.
  split.
  - destruct (enter_changes_entrants_only_on_success provider_up ascii_lower 0 "Alice"
                open_world) as [Hok _].
    destruct (Hok (mkProfile "alice" None EmptyString)) as (_ & _ & He);
      [vm_compute; reflexivity | exact He].
  - destruct (enter_changes_entrants_only_on_success provider_down ascii_lower 0 "Alice"
                open_world) as [_ Hno].
    apply Hno. intros p. vm_compute. discriminate.
Defined.

Lemma enter_unknown_identity_witness :
  enter_prize_draw provider_down ascii_lower 0 "Ghost" open_world
  = (Abort 404, mkWorld (store open_world) ["ghost"%string]).
Proof.
  apply (enter_unknown_identity provider_down ascii_lower 0 "Ghost" open_world 503
           (mkProfile EmptyString None EmptyString));
    [reflexivity | reflexivity | reflexivity | discriminate].
Defined.

Lemma closed_draw_rejects_entries_witness :
  (enter_prize_draw provider_up ascii_lower 60 "alice"
     (start_new_draw true ["A"]%string 60 0 empty_world).2).1 = Abort 403.
Proof.
  destruct (closed_draw_rejects_entries provider_up ascii_lower 60 "alice"
              empty_world) as (_ & _ & Hexp).
  rewrite (Hexp ["A"]%string 60 0); [reflexivity | discriminate | lia | | lia].
  unfold Redis.expiry_fits, Redis.LLONG_MAX. lia.
Defined.

Lemma entered_draw_state_witness :
  get_draw_state 0
    (store (enter_prize_draw provider_up ascii_lower 0 "Alice" open_world).2)
  = DRAW_OPEN_WITH_ENTRANTS.
Proof.
  apply (entered_draw_state provider_up ascii_lower 0 "Alice" open_world
           (mkProfile "alice" None EmptyString)).
  vm_compute. reflexivity.
Defined.

Lemma get_winners_is_computed_once_witness :
  exists l wx,
    get_winners provider_up key_order 0 won_world = (Ok (Some l), wx)
    /\ get_winners provider_up key_order 99999 wx = (Ok (Some l), wx).
Proof.
  let res := eval vm_compute in (get_winners provider_up key_order 0 won_world) in
  match res with
  | (Ok (Some ?l), ?wx) =>
      exists l, wx;
      assert (get_winners provider_up key_order 0 won_world = (Ok (Some l), wx)) as H
        by (vm_compute; reflexivity);
      split; [exact H|];
      destruct (get_winners_is_computed_once provider_up key_order 0 won_world l wx H)
        as [_ Hlater]; [discriminate | exact (Hlater 99999)]
  end.
Defined.

Lemma get_winners_joins_profiles_witness :
  exists l, (get_winners provider_up key_order 0 won_world).1 = Ok (Some l)
            /\ length l = 1%nat.
Proof.
  let res := eval vm_compute in
      (get_winners provider_up key_order 0 won_world) in
  match res with
  | (Ok (Some ?l), ?wx) =>
      exists l;
      destruct (get_winners_joins_profiles provider_up key_order 0 won_world
                  l wx) as (_ & _ & _ & Hlen);
        [unfold key_order; reflexivity | reflexivity
        | vm_compute; reflexivity |]
  end.
  split; [vm_compute; reflexivity | exact Hlen].
Defined.

Lemma homepage_reads_witness :
  homepage provider_up key_order 0 open_world
  = (Ok (DRAW_OPEN_NO_ENTRANTS, Some {["A"; "B"]}, None), open_world).
Proof.
  destruct (homepage_reads provider_up key_order 0 open_world) as [Hread _].
  rewrite Hread; [reflexivity|]. vm_compute. discriminate.
Defined.

(** A world reached by opening a draw, one registration and the
    allocation. *)
Lemma drawn_world_reachable :
  reachable provider_up ascii_lower key_order
    (draw_prizes true (fun n => n)
       (enter_prize_draw provider_up ascii_lower 0 "Alice"
          (start_new_draw true ["A"; "B"]%string 0 0 empty_world).2).2).2.
Proof.
  eapply reachable_step; [|apply step_draw_prizes].
  eapply reachable_step; [|apply step_enter_prize_draw].
  eapply reachable_step; [|apply step_start_new_draw].
  apply reachable_empty.
Defined.

Lemma reachable_winners_shape_witness :
  entrants
    (store (draw_prizes true (fun n => n)
              (enter_prize_draw provider_up ascii_lower 0 "Alice"
                 (start_new_draw true ["A"; "B"]%string 0 0
                    empty_world).2).2).2) = ∅.
Proof.
  destruct (reachable_winners_shape provider_up ascii_lower key_order _ drawn_world_reachable)
    as [_ Hclosed].
  apply Hclosed. intros H. apply (f_equal size) in H. vm_compute in H.
  discriminate.
Defined.

Lemma lower_ascii_idempotent c : lower_ascii (lower_ascii c) = lower_ascii c.
Proof. by destruct c as [[] [] [] [] [] [] [] []]; vm_compute. Qed.

Lemma ascii_lower_idempotent s : ascii_lower (ascii_lower s) = ascii_lower s.
Proof.
  induction s as [|c s IH]; [done|]. simpl.
  by rewrite lower_ascii_idempotent, IH.
Qed.

Lemma reachable_identities_lowercase_witness :
  "alice"%string
    ∈ entrants
        (store (enter_prize_draw provider_up ascii_lower 0 "Alice"
                  (start_new_draw true ["A"; "B"]%string 0 0
                     empty_world).2).2)
  /\ ascii_lower "alice" = "alice"%string.
Proof.
  assert ("alice"%string
            ∈ entrants
                (store (enter_prize_draw provider_up ascii_lower 0 "Alice"
                          (start_new_draw true ["A"; "B"]%string 0 0
                             empty_world).2).2)) as Hin.
  { replace (entrants _) with ({["alice"%string]} : gset string)
      by (vm_compute; reflexivity).
    by apply elem_of_singleton. }
  split; [exact Hin|].
  destruct (reachable_identities_lowercase provider_up ascii_lower key_order
              (enter_prize_draw provider_up ascii_lower 0 "Alice"
                 (start_new_draw true ["A"; "B"]%string 0 0
                    empty_world).2).2) as (_ & _ & Hfix).
  { eapply reachable_step; [|apply step_enter_prize_draw].
    eapply reachable_step; [|apply step_start_new_draw].
    apply reachable_empty. }
  destruct (Hfix ascii_lower_idempotent) as [He _].
  exact (He _ Hin).
Defined.

Lemma reachable_winner_view_is_stable_witness :
  exists l wx,
    get_winners provider_up key_order 5
      (draw_prizes true (fun n => n)
         (enter_prize_draw provider_up ascii_lower 0 "Alice"
            (start_new_draw true ["A"; "B"]%string 0 0 empty_world).2).2).2
    = (Ok (Some l), wx)
    /\ get_winners provider_up key_order 99999 wx = (Ok (Some l), wx).
Proof.
  let res := eval vm_compute in
      (get_winners provider_up key_order 5
         (draw_prizes true (fun n => n)
            (enter_prize_draw provider_up ascii_lower 0 "Alice"
               (start_new_draw true ["A"; "B"]%string 0 0
                  empty_world).2).2).2) in
  match res with
  | (Ok (Some ?l), ?wx) =>
      exists l, wx;
      assert (get_winners provider_up key_order 5
                (draw_prizes true (fun n => n)
                   (enter_prize_draw provider_up ascii_lower 0 "Alice"
                      (start_new_draw true ["A"; "B"]%string 0 0
                         empty_world).2).2).2 = (Ok (Some l), wx)) as H
        by (vm_compute; reflexivity);
      split; [exact H|];
      exact (reachable_winner_view_is_stable provider_up ascii_lower key_order 5 _ l wx
               drawn_world_reachable H 99999)
  end.
Defined.

(** ** Closing a draw *)

(** X19: [end_draw] removes the flag and nothing else, and doing it
    again changes nothing.  The state read afterwards, at any instant,
    is never an open one; with prizes present and no winners stored it
    is [DRAW_CLOSED_NO_ENTRANTS] or [DRAW_CLOSED_WITH_ENTRANTS], by the
    entrant count. *)
Theorem end_draw_closes w t :
  let w' := (end_draw true w).2 in
  end_draw true w = (Ok "OK"%string,
                     mkWorld (set_is_open None (store w)) (fetched w))
  /\ end_draw true w' = (Ok "OK"%string, w')
  /\ get_draw_state t (store w') <> DRAW_OPEN_NO_ENTRANTS
  /\ get_draw_state t (store w') <> DRAW_OPEN_WITH_ENTRANTS
  /\ (winners (store w) = ∅ -> prizes (store w) <> ∅ ->
      get_draw_state t (store w')
      = if decide (entrants (store w) = ∅) then DRAW_CLOSED_NO_ENTRANTS
        else DRAW_CLOSED_WITH_ENTRANTS).
Proof.
  intros w'. subst w'. unfold end_draw, bind, ret, write_store.
  cbn [negb fst snd store fetched].
  unfold get_draw_state, classify, Redis.exists_hash, Redis.exists_set,
    Redis.scard.
  cbn [set_is_open is_open winners prizes entrants Redis.exists_ Redis.get].
  split_and!; try done.
  - repeat case_decide; simpl;
      try destruct (Z.of_nat (size (entrants (store w))) =? 0); done.
  - repeat case_decide; simpl;
      try destruct (Z.of_nat (size (entrants (store w))) =? 0); done.
  - intros Hw Hp. rewrite decide_True, decide_False by done. simpl.
    destruct (decide (entrants (store w) = ∅)) as [->|Hne].
    + by rewrite size_empty.
    + assert (size (entrants (store w)) <> 0%nat)
        by (by intros ?%size_empty_inv%leibniz_equiv).
      by assert ((Z.of_nat (size (entrants (store w))) =? 0) = false)
        as -> by lia.
Qed.

Lemma end_draw_closes_witness :
  get_draw_state 3 (store (end_draw true two_three_world).2)
  = DRAW_CLOSED_WITH_ENTRANTS.
Proof.
  destruct (end_draw_closes two_three_world 3) as (_ & _ & _ & _ & H).
  rewrite H; [reflexivity | reflexivity |].
  intros Hp. apply (f_equal size) in Hp. vm_compute in Hp. discriminate.
Defined.
